(** * Audio separation job runner: log streaming between a worker thread
      and a generator (backend/audio-sep/gradio_app.py)

    The development embeds [separate_with_progress] and its nested
    [QueueHandler] and [worker] as an interleaving machine.  One call of
    [separate_with_progress] is a [Job]: its local queue [log_q], its
    [result] dictionary, its worker thread and the state of the generator
    body.  The module-level [separator.logger] is shared by all jobs and is
    kept in the [System] next to them.  A schedule is a list of [action]s;
    every step of the machine also reports the [event]s it performs (queue
    puts, writes of [result], yields), so that properties about order and
    multiplicity are stated on the trace of a run. *)

From Stdlib Require Import Ascii String Bool Arith Lia ZArith.
From stdpp Require Import base list strings gmap pretty.

Local Open Scope string_scope.
Local Open Scope list_scope.

(** ** Strings *)

(** Python's [sep.join(l)]. *)
Definition join (sep : string) (l : list string) : string := String.concat sep l.

Definition newline : string := String (ascii_of_nat 10) EmptyString.

(** Python's [s.split(sep)] for a one-character separator. *)
Fixpoint split_on (sep : ascii) (s : string) : list string :=
  match s with
  | EmptyString => [EmptyString]
  | String c s' =>
      if Ascii.eqb c sep then EmptyString :: split_on sep s'
      else match split_on sep s' with
           | [] => [String c EmptyString]
           | w :: ws => String c w :: ws
           end
  end.

(** Python's [s.startswith(pre)]. *)
Fixpoint startswith (s pre : string) {struct pre} : bool :=
  match pre, s with
  | EmptyString, _ => true
  | String _ _, EmptyString => false
  | String a pre', String c s' => Ascii.eqb c a && startswith s' pre'
  end.

(** [s] ends with [suf]. *)
Definition endswith (s suf : string) : Prop := exists pre, s = pre +:+ suf.

(** ** pathlib (POSIX flavour)

    A path is kept the way [pathlib] keeps it once parsed: its root
    (empty, one slash or two slashes) and the list of its components. *)

Record PurePath := mkPath { root : string; tail : list string }.

(** [posixpath.splitroot]: the root of a raw path and what follows it. *)
Definition splitroot (p : string) : string * string :=
  match p with
  | String "/" (String "/" (String "/" r)) => ("/", String "/" (String "/" r))
  | String "/" (String "/" r) => ("//", r)
  | String "/" r => ("/", r)
  | _ => ("", p)
  end.

Definition is_component (x : string) : bool :=
  negb (String.eqb x "") && negb (String.eqb x ".").

(** [PurePath._parse_path]: empty and ["."] components are dropped. *)
Definition parse_path (p : string) : PurePath :=
  let '(rt, rel) := splitroot p in
  mkPath rt (filter (fun x => is_component x = true) (split_on "/" rel)).

(** [str(path)]. *)
Definition path_str (p : PurePath) : string :=
  match root p, tail p with
  | EmptyString, [] => "."
  | rt, tl => rt +:+ join "/" tl
  end.

Definition is_absolute (p : PurePath) : bool := negb (String.eqb (root p) "").

(** [path / key] for a string [key]: a key that has a root replaces the
    path, otherwise its components are appended. *)
Definition truediv (p : PurePath) (key : string) : PurePath :=
  let k := parse_path key in
  if is_absolute k then k else mkPath (root p) (tail p ++ tail k).

(** [path.parent]. *)
Definition parent (p : PurePath) : PurePath :=
  mkPath (root p) (removelast (tail p)).

(** [path.absolute()], the current directory being [/c1/.../cn] for
    [cwd = [c1; ...; cn]]. *)
Definition absolute (cwd : list string) (p : PurePath) : PurePath :=
  if is_absolute p then p else mkPath "/" (cwd ++ tail p).

(** The components of [p] begin with the components of [base]. *)
Definition path_prefix (base p : PurePath) : Prop :=
  root p = root base /\ exists rest, tail p = tail base ++ rest.

(** [posixpath.normpath] on components: a [".."] removes the component
    before it; at the root it is dropped, and at the start of a relative
    path, or after another [".."], it is kept.  [acc] holds the components
    kept so far, last first. *)
Fixpoint normpath_from (absolute : bool) (acc comps : list string) : list string :=
  match comps with
  | [] => rev acc
  | c :: cs =>
      if String.eqb c ".." then
        match acc with
        | top :: acc' =>
            if String.eqb top ".." then normpath_from absolute (c :: acc) cs
            else normpath_from absolute acc' cs
        | [] =>
            if absolute then normpath_from absolute [] cs
            else normpath_from absolute [c] cs
        end
      else normpath_from absolute (c :: acc) cs
  end.

(** The components of the place a path names, once every [".."] has been
    followed. *)
Definition resolved (p : PurePath) : list string :=
  normpath_from (is_absolute p) [] (tail p).

(** [p] lies under the directory [base]: the place it names is the place
    [base] names followed by further components. *)
Definition rooted_under (base p : PurePath) : Prop :=
  root p = root base /\ exists rest, resolved p = resolved base ++ rest.

(** ** logging *)

Definition DEBUG : nat := 10.
Definition INFO : nat := 20.

(** A log record as the formatter of [QueueHandler] sees it: [asctime] is
    the creation time rendered with [datefmt], [getMessage] is [None] when
    building the message raises. *)
Record LogRecord := mkRecord {
  levelno : nat;
  levelname : string;
  asctime : string;
  getMessage : option string
}.

(** [logging.Formatter("%(asctime)s - %(levelname)s - %(message)s")]:
    [None] when formatting raises. *)
Definition format (r : LogRecord) : option string :=
  match getMessage r with
  | Some m => Some (asctime r +:+ " - " +:+ levelname r +:+ " - " +:+ m)
  | None => None
  end.

Definition SEPARATION_DONE : string := "__SEPARATION_DONE__".

(** ** The Processor

    [separator.separate] is opaque.  A call is described by what it is
    observed to do: the records it logs on [separator.logger], in order,
    and how it ends. *)

Record PyExc := mkExc {
  is_Exception : bool;   (* isinstance(e, Exception) *)
  exc_str : string       (* str(e) *)
}.

Inductive outcome :=
| Returns (files : option (list string))   (* [None] is Python's None *)
| Raises (e : PyExc).

Definition behaviour : Type := list LogRecord * outcome.

(** ** Jobs *)

(** The thread running [worker]: inside [separator.separate] with the
    records still to log; at the [finally] clause, with or without an
    exception in flight; returned; ended by an exception. *)
Inductive thread_state :=
| TRunning (evs : list LogRecord) (out : outcome)
| TFinally (pending : bool)
| TDone
| TCrashed.

Definition is_alive (t : thread_state) : bool :=
  match t with
  | TRunning _ _ | TFinally _ => true
  | TDone | TCrashed => false
  end.

(** Where the generator body stands. *)
Inductive gen_state :=
| GPoll      (* line 96: about to call log_q.get(timeout=0.2) *)
| GYield     (* suspended at the yield of line 107 *)
| GAlive     (* line 99, after queue.Empty: about to read thread.is_alive() *)
| GEmpty     (* line 99: the thread is dead, about to read log_q.empty() *)
| GDrain     (* line 110 *)
| GDetach    (* line 116 *)
| GFinal     (* lines 118-128 *)
| GDone      (* final pair yielded, nothing follows but the return *)
| GClosed.   (* closed by the caller while suspended at line 107 *)

Record Job := mkJob {
  audio_path : PurePath;
  log_q : list string;                    (* queue.Queue, oldest first *)
  result_files : option (list string);    (* result["files"] *)
  result_error : option string;           (* result["error"] *)
  thread : thread_state;
  gen : gen_state;
  logs : list string
}.

Definition set_log_q (q : list string) (j : Job) : Job :=
  mkJob (audio_path j) q (result_files j) (result_error j) (thread j) (gen j) (logs j).
Definition set_result_files (f : option (list string)) (j : Job) : Job :=
  mkJob (audio_path j) (log_q j) f (result_error j) (thread j) (gen j) (logs j).
Definition set_result_error (e : option string) (j : Job) : Job :=
  mkJob (audio_path j) (log_q j) (result_files j) e (thread j) (gen j) (logs j).
Definition set_thread (t : thread_state) (j : Job) : Job :=
  mkJob (audio_path j) (log_q j) (result_files j) (result_error j) t (gen j) (logs j).
Definition set_gen (g : gen_state) (j : Job) : Job :=
  mkJob (audio_path j) (log_q j) (result_files j) (result_error j) (thread j) g (logs j).
Definition set_logs (l : list string) (j : Job) : Job :=
  mkJob (audio_path j) (log_q j) (result_files j) (result_error j) (thread j) (gen j) l.

(** [log_q.put(msg)]. *)
Definition put (msg : string) (j : Job) : Job := set_log_q (log_q j ++ [msg]) j.

(** The shared logger's handler list and the jobs.  The [QueueHandler] a
    job creates is named by the index of the job. *)
Record System := mkSystem {
  handlers : list nat;
  jobs : list Job
}.

Definition with_job (i : nat) (f : Job -> Job) (s : System) : System :=
  mkSystem (handlers s) (alter f i (jobs s)).

Inductive event :=
| EPut (i : nat) (msg : string)                          (* put on the queue of job i *)
| EStoreFiles (i : nat) (files : option (list string))   (* result["files"] = files *)
| EStoreError (i : nat) (msg : string)                   (* result["error"] = msg *)
| EYield (i : nat) (text : string) (files : option (list string)).

Inductive PyError :=
| FileNotFoundError (msg : string).

(** A schedule picks, at each step, the thread of a job, the generator of
    a job (the caller is inside [next()]), or the caller closing the
    generator of a job. *)
Inductive action :=
| Worker (i : nat)
| Consumer (i : nat)
| Close (i : nat).

(** ** The shared logger *)

(** [Logger.addHandler] and [Logger.removeHandler]. *)
Definition addHandler (h : nat) (hs : list nat) : list nat :=
  if bool_decide (h ∈ hs) then hs else hs ++ [h].

Fixpoint removeHandler (h : nat) (hs : list nat) : list nat :=
  match hs with
  | [] => []
  | x :: hs' => if Nat.eqb x h then hs' else x :: removeHandler h hs'
  end.

(** [QueueHandler.emit] of the handler of job [h]: the formatted line is
    put on that job's queue; a failure to format is swallowed. *)
Definition QueueHandler_emit (h : nat) (r : LogRecord) (js : list Job)
  : list Job * list event :=
  match format r with
  | Some msg => (alter (put msg) h js, [EPut h msg])
  | None => (js, [])
  end.

(** [Logger.callHandlers]: every attached handler whose level (DEBUG for a
    [QueueHandler]) admits the record handles it, in the order of
    attachment. *)
Fixpoint callHandlers (r : LogRecord) (hs : list nat) (js : list Job)
  : list Job * list event :=
  match hs with
  | [] => (js, [])
  | h :: hs' =>
      let '(js1, e1) :=
        if Nat.leb DEBUG (levelno r) then QueueHandler_emit h r js else (js, []) in
      let '(js2, e2) := callHandlers r hs' js1 in
      (js2, e1 ++ e2)
  end.

(** A record logged on [separator.logger], whose level [make_separator]
    sets to INFO. *)
Definition Logger_handle (r : LogRecord) (s : System) : System * list event :=
  if Nat.leb INFO (levelno r) then
    let '(js, e) := callHandlers r (handlers s) (jobs s) in
    (mkSystem (handlers s) js, e)
  else (s, []).

Section JobRunner.

(** [__file__], the current directory at import time, and which paths
    name regular files. *)
Variable module_file : string.
Variable cwd : list string.
Variable is_file : string -> bool.

Definition WORKSPACE_DIR : PurePath := absolute cwd (parent (parse_path module_file)).
Definition BASE_OUTPUT_DIR : PurePath := truediv WORKSPACE_DIR "output".

(** [str((BASE_OUTPUT_DIR / fname).absolute())]. *)
Definition resolve (fname : string) : string :=
  path_str (absolute cwd (truediv BASE_OUTPUT_DIR fname)).

(** ** [worker] *)

Definition worker_step (i : nat) (s : System) : System * list event :=
  match jobs s !! i with
  | None => (s, [])
  | Some j =>
      match thread j with
      | TRunning (r :: evs) out =>
          let '(s1, e) := Logger_handle r s in
          (with_job i (set_thread (TRunning evs out)) s1, e)
      | TRunning [] (Returns files) =>
          (with_job i (fun j => set_thread (TFinally false) (set_result_files files j)) s,
           [EStoreFiles i files])
      | TRunning [] (Raises e) =>
          if is_Exception e then
            (with_job i (fun j => set_thread (TFinally false)
                                    (set_result_error (Some (exc_str e)) j)) s,
             [EStoreError i (exc_str e)])
          else (with_job i (set_thread (TFinally true)) s, [])
      | TFinally pending =>
          (with_job i (fun j => set_thread (if pending then TCrashed else TDone)
                                  (put SEPARATION_DONE j)) s,
           [EPut i SEPARATION_DONE])
      | TDone | TCrashed => (s, [])
      end
  end.

(** ** [separate_with_progress] *)

(** Lines 46-91, run by the first [next()]: the check of the input, then
    the queue, the handler, the result and the thread. *)
Definition start (audio_filepath : string) (b : behaviour) (s : System)
  : System * (PyError + nat) :=
  let p := parse_path audio_filepath in
  if is_file (path_str p) then
    let i := length (jobs s) in
    (mkSystem (addHandler i (handlers s))
       (jobs s ++ [mkJob p [] None None (TRunning (fst b) (snd b)) GPoll []]),
     inr i)
  else (s, inl (FileNotFoundError ("Uploaded file not found: " +:+ audio_filepath))).

(** [result.get("error")] as a condition: [None] and [""] are false. *)
Definition truthy (e : option string) : bool :=
  match e with
  | Some (String _ _) => true
  | _ => false
  end.

(** [result.get("files") or []]. *)
Definition files_or_empty (f : option (list string)) : list string :=
  match f with
  | Some (x :: l) => x :: l
  | _ => []
  end.

(** Lines 118-128: the final pair. *)
Definition final_pair (j : Job) : string * option (list string) :=
  let full_logs := join newline (logs j) in
  if truthy (result_error j) then
    (full_logs +:+ newline +:+ "ERROR: " +:+ default "" (result_error j), None)
  else (full_logs, Some (map resolve (files_or_empty (result_files j)))).

Definition consumer_step (i : nat) (s : System) : System * list event :=
  match jobs s !! i with
  | None => (s, [])
  | Some j =>
      match gen j with
      | GPoll =>
          match log_q j with
          | [] => (with_job i (set_gen GAlive) s, [])
          | line :: q =>
              if String.eqb line SEPARATION_DONE then
                (with_job i (fun j => set_gen GDrain (set_log_q q j)) s, [])
              else
                (with_job i (fun j => set_gen GYield
                                        (set_logs (logs j ++ [line]) (set_log_q q j))) s,
                 [EYield i (join newline (logs j ++ [line])) None])
          end
      | GYield => (with_job i (set_gen GPoll) s, [])
      | GAlive =>
          if is_alive (thread j) then (with_job i (set_gen GPoll) s, [])
          else (with_job i (set_gen GEmpty) s, [])
      | GEmpty =>
          match log_q j with
          | [] => (with_job i (set_gen GDrain) s, [])
          | _ :: _ => (with_job i (set_gen GPoll) s, [])
          end
      | GDrain =>
          match log_q j with
          | [] => (with_job i (set_gen GDetach) s, [])
          | line :: q =>
              if String.eqb line SEPARATION_DONE then
                (with_job i (set_log_q q) s, [])
              else
                (with_job i (fun j => set_logs (logs j ++ [line]) (set_log_q q j)) s, [])
          end
      | GDetach =>
          (mkSystem (removeHandler i (handlers s)) (alter (set_gen GFinal) i (jobs s)), [])
      | GFinal =>
          let '(text, files) := final_pair j in
          (with_job i (set_gen GDone) s, [EYield i text files])
      | GDone | GClosed => (s, [])
      end
  end.

(** [generator.close()]: only a generator suspended at the yield of line
    107 has something left to skip; no clause of the body catches the
    [GeneratorExit] raised there. *)
Definition close_step (i : nat) (s : System) : System * list event :=
  match jobs s !! i with
  | None => (s, [])
  | Some j =>
      match gen j with
      | GYield => (with_job i (set_gen GClosed) s, [])
      | _ => (s, [])
      end
  end.

Definition step (a : action) (s : System) : System * list event :=
  match a with
  | Worker i => worker_step i s
  | Consumer i => consumer_step i s
  | Close i => close_step i s
  end.

(** A run of a schedule and its trace. *)
Fixpoint run (sched : list action) (s : System) : System * list event :=
  match sched with
  | [] => (s, [])
  | a :: sched' =>
      let '(s1, e1) := step a s in
      let '(s2, e2) := run sched' s1 in
      (s2, e1 ++ e2)
  end.

Definition empty_system : System := mkSystem [] [].

(** The pairs job [i] yields in a trace, and the messages put on its
    queue. *)
Definition yields (i : nat) (tr : list event) : list (string * option (list string)) :=
  omap (fun e => match e with
                 | EYield k text files => if Nat.eqb k i then Some (text, files) else None
                 | _ => None
                 end) tr.

Definition puts (i : nat) (tr : list event) : list string :=
  omap (fun e => match e with
                 | EPut k msg => if Nat.eqb k i then Some msg else None
                 | _ => None
                 end) tr.

End JobRunner.

(** * Specification *)

(** A formatted line contains a blank; the sentinel does not. *)
Fixpoint has_space (s : string) : bool :=
  match s with
  | EmptyString => false
  | String c s' => Ascii.eqb c " " || has_space s'
  end.

(** What the handler of a job puts on its queue for a record logged on
    the logger it is attached to. *)
Definition relay (r : LogRecord) : option string :=
  if Nat.leb INFO (levelno r) then
    if Nat.leb DEBUG (levelno r) then format r else None
  else None.

Definition relay_lines (evs : list LogRecord) : list string := omap relay evs.

(** The pairs yielded while polling once the lines [l] have been taken
    from the queue one by one: the text grows by one line per pair and the
    artifacts are absent. *)
Definition intermediate (l : list string) : list (string * option (list string)) :=
  map (fun k => (join newline (take k l), None)) (seq 1 (length l)).

(** What [worker] leaves in [result] for each way the Processor ends, the
    events by which it does so, and whether an exception leaves the
    thread. *)
Definition recorded_files (o : outcome) : option (list string) :=
  match o with
  | Returns f => f
  | Raises _ => None
  end.

Definition recorded_error (o : outcome) : option string :=
  match o with
  | Returns _ => None
  | Raises e => if is_Exception e then Some (exc_str e) else None
  end.

Definition escapes (o : outcome) : bool :=
  match o with
  | Returns _ => false
  | Raises e => negb (is_Exception e)
  end.

Definition stores (o : outcome) : list event :=
  match o with
  | Returns f => [EStoreFiles 0 f]
  | Raises e => if is_Exception e then [EStoreError 0 (exc_str e)] else []
  end.

(** The writes of [result] and the puts of the sentinel by job [i], in
    the order of the trace. *)
Definition is_outcome_event (i : nat) (e : event) : bool :=
  match e with
  | EPut k msg => Nat.eqb k i && String.eqb msg SEPARATION_DONE
  | EStoreFiles k _ | EStoreError k _ => Nat.eqb k i
  | EYield _ _ _ => false
  end.

Definition outcome_events (i : nat) (tr : list event) : list event :=
  List.filter (is_outcome_event i) tr.

(** How many steps a thread, and a generator whose thread has ended, still
    take. *)
Definition worker_fuel (t : thread_state) : nat :=
  match t with
  | TRunning evs _ => length evs + 2
  | TFinally _ => 1
  | TDone | TCrashed => 0
  end.

Definition consumer_fuel (j : Job) : nat :=
  match gen j with
  | GPoll => 2 * length (log_q j) + 2
  | GYield => 2 * length (log_q j) + 3
  | GAlive => 2 * length (log_q j) + 4
  | GEmpty => 2 * length (log_q j) + 3
  | GDrain => length (log_q j) + 3
  | GDetach => 2
  | GFinal => 1
  | GDone | GClosed => 0
  end.

(** The system right after the first job has started. *)
Definition started (p : PurePath) (b : behaviour) : System :=
  mkSystem [0] [mkJob p [] None None (TRunning (fst b) (snd b)) GPoll []].

Section SingleJob.

Variable module_file : string.
Variable cwd : list string.
Variable p : PurePath.
Variable b : behaviour.

(** The job once its thread has ended and all its lines have been taken. *)
Definition finished_job (t : thread_state) (g : gen_state) : Job :=
  mkJob p [] (recorded_files (snd b)) (recorded_error (snd b)) t g (relay_lines (fst b)).

Definition expected_final : string * option (list string) :=
  final_pair module_file cwd (finished_job TDone GFinal).

(** The thread of the only job, against the Processor's behaviour: the
    contents of [result], everything put on the queue so far and the
    outcome events so far. *)
Inductive worker_at :
  thread_state -> option (list string) -> option string ->
  list string -> list event -> Prop :=
| at_running done evs :
    fst b = done ++ evs ->
    worker_at (TRunning evs (snd b)) None None (relay_lines done) []
| at_finally :
    worker_at (TFinally (escapes (snd b)))
      (recorded_files (snd b)) (recorded_error (snd b))
      (relay_lines (fst b)) (stores (snd b))
| at_ended t :
    t = (if escapes (snd b) then TCrashed else TDone) ->
    worker_at t (recorded_files (snd b)) (recorded_error (snd b))
      (relay_lines (fst b) ++ [SEPARATION_DONE])
      (stores (snd b) ++ [EPut 0 SEPARATION_DONE]).

(** The generator of the only job: its [logs], its queue, everything put
    on the queue so far and the handlers of the logger. *)
Inductive consumer_at :
  gen_state -> list string -> list string -> list string -> list nat -> Prop :=
| at_polling g lg q :
    g = GPoll \/ g = GYield \/ g = GAlive \/ g = GClosed ->
    Forall (fun m => m <> SEPARATION_DONE) lg ->
    consumer_at g lg q (lg ++ q) [0]
| at_empty lg q :
    Forall (fun m => m <> SEPARATION_DONE) lg ->
    lg ++ q = relay_lines (fst b) ++ [SEPARATION_DONE] ->
    consumer_at GEmpty lg q (lg ++ q) [0]
| at_drained g :
    g = GDrain \/ g = GDetach ->
    consumer_at g (relay_lines (fst b)) []
      (relay_lines (fst b) ++ [SEPARATION_DONE]) [0]
| at_detached g :
    g = GFinal \/ g = GDone ->
    consumer_at g (relay_lines (fst b)) []
      (relay_lines (fst b) ++ [SEPARATION_DONE]) [].

Definition single_inv (s : System) (tr : list event) : Prop :=
  exists j hist,
    jobs s = [j] /\ audio_path j = p /\
    worker_at (thread j) (result_files j) (result_error j) hist (outcome_events 0 tr) /\
    consumer_at (gen j) (logs j) (log_q j) hist (handlers s) /\
    yields 0 tr =
      intermediate (logs j) ++
      match gen j with GDone => [expected_final] | _ => [] end.

End SingleJob.

(** No job has taken the sentinel into its [logs]. *)
Definition logs_clean (s : System) : Prop :=
  Forall (fun j => Forall (fun m => m <> SEPARATION_DONE) (logs j)) (jobs s).

(** The messages of a queue that are not the sentinel, and the lines of a
    job: those it has accumulated in [logs], then those still waiting. *)
Definition waiting_lines (q : list string) : list string :=
  List.filter (fun m => negb (String.eqb m SEPARATION_DONE)) q.

Definition flow (j : Job) : list string := logs j ++ waiting_lines (log_q j).

(** The generator is inside the polling loop or the draining loop: it
    still reads its queue. *)
Definition reading (g : gen_state) : bool :=
  match g with
  | GPoll | GYield | GAlive | GEmpty | GDrain => true
  | GDetach | GFinal | GDone | GClosed => false
  end.

(** How many steps a reading generator takes at most to empty a queue to
    which nothing more is added. *)
Definition drain_fuel (j : Job) : nat :=
  match log_q j with
  | [] => 0
  | _ :: _ =>
      match gen j with
      | GPoll => 2 * length (log_q j) - 1
      | GYield | GEmpty => 2 * length (log_q j)
      | GAlive => 2 * length (log_q j) + 1
      | GDrain => length (log_q j)
      | GDetach | GFinal | GDone | GClosed => 0
      end
  end.

(** What the queue of job [k] receives when a record is logged while the
    handlers [hs] are attached. *)
Definition delivered (r : LogRecord) (k : nat) (hs : list nat) : list string :=
  flat_map (fun h => if Nat.eqb h k then option_list (relay r) else []) hs.

(** ** Concrete inputs *)

Definition ex_module_file : string := "/app/gradio_app.py".
Definition ex_cwd : list string := ["app"].
Definition ex_is_file (path : string) : bool := String.eqb path "in.wav".

Definition ex_record : LogRecord :=
  mkRecord 20 "INFO" "12:00:01" (Some "loading model").

(** One line, then [raise OSError("disk full")]. *)
Definition ex_disk_full : behaviour := ([ex_record], Raises (mkExc true "disk full")).

(** The thread logs, the generator takes the line, the thread ends, the
    generator runs to its end. *)
Definition ex_schedule : list action :=
  [Worker 0; Consumer 0; Worker 0; Worker 0;
   Consumer 0; Consumer 0; Consumer 0; Consumer 0; Consumer 0].


Definition ex_success : behaviour := ([ex_record], Returns (Some ["a.wav"])).
Definition ex_absolute_name : behaviour := ([], Returns (Some ["/tmp/b.wav"])).
Definition ex_dotdot_name : behaviour := ([], Returns (Some ["../../etc/passwd"])).
Definition ex_silent : behaviour := ([], Returns (Some ["a.wav"])).
Definition ex_none : behaviour := ([], Returns None).

(** The thread ends before the generator moves. *)
Definition ex_schedule_silent : list action :=
  [Worker 0; Worker 0; Consumer 0; Consumer 0; Consumer 0; Consumer 0].

(** The caller closes the generator after the first pair. *)
Definition ex_schedule_close : list action := [Worker 0; Consumer 0; Close 0].

Definition ex_job (b : behaviour) : System :=
  fst (start ex_is_file "in.wav" b empty_system).

Definition ex_run (sched : list action) (b : behaviour) : System * list event :=
  run ex_module_file ex_cwd sched (ex_job b).



(** A job at line 110 whose queue holds the sentinel twice. *)
Definition ex_draining : System :=
  mkSystem [0]
    [mkJob (parse_path "in.wav")
       [SEPARATION_DONE; "late line"; SEPARATION_DONE] None None TDone GDrain ["first line"]].


(** ** Further notions about jobs *)

(** The record reaches the queues: its level passes the logger and its
    message can be built. *)
Definition relayed (r : LogRecord) : bool :=
  match relay r with
  | Some _ => true
  | None => false
  end.

Definition is_store_event (e : event) : bool :=
  match e with
  | EStoreFiles _ _ | EStoreError _ _ => true
  | _ => false
  end.

(** ** The directories of the module *)

(** [MODEL_DIR = WORKSPACE_DIR / "models"]. *)
Definition MODEL_DIR (module_file : string) (cwd : list string) : PurePath :=
  truediv (WORKSPACE_DIR module_file cwd) "models".

(** [c in s]. *)
Fixpoint has_char (c : ascii) (s : string) : bool :=
  match s with
  | EmptyString => false
  | String x s' => Ascii.eqb x c || has_char c s'
  end.

(** ** The user interface ([ui] and the functions nested in it) *)

Module UI.

Section Components.

(** The array [soundfile.read] returns. *)
Variable Samples : Type.

(** What a path names on disk: a file [soundfile] can decode, with its
    samples and its sample rate, or some other file. *)
Inductive File :=
| AudioFile (data : Samples) (sr : nat)
| OtherFile.

(** [gr.Audio(label=..., value=..., visible=..., key=...)]; an argument
    that is not given is [None]. *)
Record Audio := mkAudio {
  label : option string;
  value : option (nat * Samples);
  visible : bool;
  key : option string
}.

Inductive UIError :=
| SoundFileError (path : string).   (* raised by soundfile.read *)

Definition MAX_AUDIO_NUM : nat := 2.

(** [gr.Audio(label=f"Audio Output {i + 1}", visible=False, key=f"audio_{i}")]. *)
Definition hidden_audio (i : nat) : Audio :=
  mkAudio (Some ("Audio Output " +:+ pretty (i + 1))) None false
          (Some ("audio_" +:+ pretty i)).

(** [gr.Audio(label=str(audio_path), value=(sr, data), visible=True, key=f"audio_{i}")]. *)
Definition shown_audio (i : nat) (audio_path : string) (sr : nat) (data : Samples) : Audio :=
  mkAudio (Some audio_path) (Some (sr, data)) true (Some ("audio_" +:+ pretty i)).

(** The components [ui] creates before any click. *)
Definition output_audios : list Audio := map hidden_audio (seq 0 MAX_AUDIO_NUM).

(** The body of the loop of [render_audios_and_clean] for the indices
    [idx], on the updates and the file system so far.  An exception of
    [soundfile.read] ends the call; what was unlinked before stays
    unlinked. *)
Fixpoint render_from (idx : list nat) (audio_paths : list string)
    (updates : list Audio) (fs : gmap string File)
  : (UIError + list Audio) * gmap string File :=
  match idx with
  | [] => (inr updates, fs)
  | i :: idx' =>
      match audio_paths !! i with
      | None =>
          (* i >= len(audio_paths) *)
          render_from idx' audio_paths (updates ++ [hidden_audio i]) fs
      | Some audio_path =>
          match fs !! audio_path with
          | Some (AudioFile data sr) =>
              render_from idx' audio_paths
                (updates ++ [shown_audio i audio_path sr data])
                (delete audio_path fs)   (* Path(audio_path).unlink(missing_ok=True) *)
          | _ => (inl (SoundFileError audio_path), fs)
          end
      end
  end.

Definition render_audios_and_clean (audio_paths : list string) (fs : gmap string File)
  : (UIError + list Audio) * gmap string File :=
  render_from (seq 0 MAX_AUDIO_NUM) audio_paths [] fs.

(** What [_run_and_update] yields for one pair of
    [separate_with_progress]. *)
Definition update_of_pair (y : string * option (list string)) (fs : gmap string File)
  : (UIError + (string * list Audio)) * gmap string File :=
  match y with
  | (logs, None) =>
      (inr (logs, replicate (length output_audios) (mkAudio None None false None)), fs)
  | (logs, Some fpaths) =>
      match render_audios_and_clean fpaths fs with
      | (inr updates, fs') => (inr (logs, updates), fs')
      | (inl err, fs') => (inl err, fs')
      end
  end.

(** [_run_and_update] over the pairs the generator yields: the updates
    yielded, the exception that ended it if any, and the file system
    left. *)
Fixpoint _run_and_update (pairs : list (string * option (list string)))
    (fs : gmap string File)
  : list (string * list Audio) * option UIError * gmap string File :=
  match pairs with
  | [] => ([], None, fs)
  | y :: pairs' =>
      match update_of_pair y fs with
      | (inl err, fs') => ([], Some err, fs')
      | (inr u, fs') =>
          let '(us, err, fs'') := _run_and_update pairs' fs' in
          (u :: us, err, fs'')
      end
  end.

End Components.

End UI.

(** The update [_run_and_update] yields for a pair without artifacts:
    the text, and [gr.Audio(visible=False)] for each output component. *)
Definition hidden_update (Samples : Type) (y : string * option (list string))
  : string * list (UI.Audio Samples) :=
  (fst y, replicate UI.MAX_AUDIO_NUM (UI.mkAudio Samples None None false None)).

(** A file system for the examples: one decoded artifact. *)
Definition ex_fs : gmap string (UI.File (list nat)) :=
  {[ "/app/output/a.wav" := UI.AudioFile (list nat) [1; 2; 3] 4000 ]}.

(** A record below the level of the logger, and a job that logs it
    before the record of [ex_success]. *)
Definition ex_debug_record : LogRecord :=
  mkRecord 10 "DEBUG" "12:00:00" (Some "chunk 1").

Definition ex_noisy : behaviour := ([ex_debug_record; ex_record], Returns (Some ["a.wav"])).

Definition ex_schedule_noisy : list action :=
  [Worker 0; Worker 0; Worker 0; Worker 0;
   Consumer 0; Consumer 0; Consumer 0; Consumer 0; Consumer 0; Consumer 0].

(** [raise ValueError()]: an [Exception] whose message is empty. *)
Definition ex_empty_message : behaviour := ([ex_record], Raises (mkExc true "")).

(** ** The text endpoint (backend/tts/chatterbox-turbo/api_server.py) *)

Module TTS.

(** [class FooInput(BaseModel)]: [repeat] is a Python [int]. *)
Record FooInput := mkFooInput {
  text : string;
  repeat : Z
}.

(** [repeat: int = 1]. *)
Definition default_repeat : Z := 1.

Record FooOutput := mkFooOutput { result : string }.

(** What [text * repeat] can raise. *)
Inductive PyRaise :=
| OverflowError (msg : string)
| MemoryError.

(** The largest [Py_ssize_t] of a 64-bit build, [2 ** 63 - 1]. *)
Definition PY_SSIZE_T_MAX : Z := 9223372036854775807.

(** [n] copies of [s]. *)
Fixpoint str_mul_nat (s : string) (n : nat) : string :=
  match n with
  | O => ""
  | S n' => s +:+ str_mul_nat s n'
  end.

Section Repeat.

(** Whether a string of so many characters can be allocated. *)
Variable can_allocate : Z -> bool.

(** Python's [s * n] on a string.  The count is first converted to a
    [Py_ssize_t] ([OverflowError] when it does not fit); a count below one
    gives the empty string and a count of one the string itself; otherwise
    the length of the result must fit a [Py_ssize_t] ([OverflowError]) and
    the result is allocated ([MemoryError]), an empty result needing no
    allocation. *)
Definition str_mul (s : string) (n : Z) : PyRaise + string :=
  let len := Z.of_nat (String.length s) in
  if ((n <? - PY_SSIZE_T_MAX - 1) || (PY_SSIZE_T_MAX <? n))%Z then
    inl (OverflowError "cannot fit 'int' into an index-sized integer")
  else if (n <? 1)%Z then inr ""
  else if (n =? 1)%Z then inr s
  else if (PY_SSIZE_T_MAX / n <? len)%Z then
    inl (OverflowError "repeated string is too long")
  else if (n * len =? 0)%Z then inr ""
  else if can_allocate (n * len)%Z then inr (str_mul_nat s (Z.to_nat n))
  else inl MemoryError.

(** [tts]: the exception of the product leaves the function. *)
Definition tts (input : FooInput) : PyRaise + FooOutput :=
  match str_mul (text input) (repeat input) with
  | inl e => inl e
  | inr r => inr (mkFooOutput r)
  end.

End Repeat.

End TTS.

(** * Properties *)

(** ** Formatted lines and the sentinel *)

Lemma has_space_app (a b : string) :
  has_space (a +:+ b) = has_space a || has_space b.
Proof.
  induction a as [|c a IH]; simpl; [reflexivity|].
  rewrite IH. apply orb_assoc.
Qed.

Lemma format_has_space (r : LogRecord) (m : string) :
  format r = Some m -> has_space m = true.
Proof.
  unfold format. destruct (getMessage r) as [g|]; [|discriminate].
  intros [= <-]. rewrite !has_space_app. simpl.
  apply orb_true_r.
Qed.

Lemma format_not_sentinel (r : LogRecord) (m : string) :
  format r = Some m -> m <> SEPARATION_DONE.
Proof.
  intros H ->. apply format_has_space in H. discriminate H.
Qed.

Lemma relay_not_sentinel (r : LogRecord) (m : string) :
  relay r = Some m -> m <> SEPARATION_DONE.
Proof.
  unfold relay. destruct (Nat.leb INFO _); [|discriminate].
  destruct (Nat.leb DEBUG _); [|discriminate]. apply format_not_sentinel.
Qed.

Lemma relay_lines_not_sentinel (evs : list LogRecord) :
  Forall (fun m => m <> SEPARATION_DONE) (relay_lines evs).
Proof.
  induction evs as [|r evs IH]; simpl; [constructor|].
  unfold relay_lines in *. simpl. destruct (relay r) as [m|] eqn:E; simpl; [|exact IH].
  constructor; [eapply relay_not_sentinel; eassumption | exact IH].
Qed.

Lemma relay_lines_app (a b : list LogRecord) :
  relay_lines (a ++ b) = relay_lines a ++ relay_lines b.
Proof. apply omap_app. Qed.

Lemma eqb_sentinel_false (m : string) :
  m <> SEPARATION_DONE -> String.eqb m SEPARATION_DONE = false.
Proof. intros H. destruct (String.eqb_spec m SEPARATION_DONE); congruence. Qed.

(** ** Runs *)

Section Runs.

Variable module_file : string.
Variable cwd : list string.

Local Abbreviation step := (step module_file cwd).
Local Abbreviation run := (run module_file cwd).

Lemma run_app (sc1 sc2 : list action) (s : System) :
  run (sc1 ++ sc2) s =
  let '(s1, e1) := run sc1 s in
  let '(s2, e2) := run sc2 s1 in (s2, e1 ++ e2).
Proof.
  revert s. induction sc1 as [|a sc1 IH]; intros s; simpl.
  - destruct (run sc2 s); reflexivity.
  - destruct (step a s) as [s1 e1]. rewrite IH.
    destruct (run sc1 s1) as [s2 e2]. destruct (run sc2 s2) as [s3 e3].
    rewrite app_assoc. reflexivity.
Qed.

(** A property of states and traces that holds initially and is kept by
    every step holds after every run. *)
Lemma run_invariant (P : System -> list event -> Prop) (s0 : System) :
  P s0 [] ->
  (forall a s tr s' e, P s tr -> step a s = (s', e) -> P s' (tr ++ e)) ->
  forall sched s tr, run sched s0 = (s, tr) -> P s tr.
Proof.
  intros H0 Hstep sched.
  induction sched as [|a sched IH] using rev_ind; intros s tr Hrun.
  - simpl in Hrun. injection Hrun as <- <-. exact H0.
  - rewrite run_app in Hrun.
    destruct (run sched s0) as [s1 e1]. simpl in Hrun.
    destruct (step a s1) as [s2 e2] eqn:E.
    injection Hrun as <- <-. rewrite app_nil_r.
    eapply Hstep; [apply IH; reflexivity | exact E].
Qed.

End Runs.

(** ** One job *)

Lemma intermediate_snoc (l : list string) (x : string) :
  intermediate (l ++ [x]) = intermediate l ++ [(join newline (l ++ [x]), None)].
Proof.
  unfold intermediate. rewrite length_app. simpl.
  rewrite Nat.add_1_r, seq_S, map_app. simpl. f_equal.
  - apply map_ext_in. intros k Hk. apply in_seq in Hk.
    rewrite take_app_le by lia. reflexivity.
  - rewrite take_ge by (rewrite length_app; simpl; lia). reflexivity.
Qed.

Lemma intermediate_length (l : list string) : length (intermediate l) = length l.
Proof. unfold intermediate. rewrite length_map, length_seq. reflexivity. Qed.

Lemma intermediate_absent (l : list string) :
  Forall (fun y => snd y = None) (intermediate l).
Proof. unfold intermediate. apply Forall_map, Forall_forall. reflexivity. Qed.

Lemma sentinel_last (lg q L : list string) :
  lg ++ SEPARATION_DONE :: q = L ++ [SEPARATION_DONE] ->
  Forall (fun m => m <> SEPARATION_DONE) L ->
  q = [] /\ lg = L.
Proof.
  intros E HL. destruct q as [|y q] using rev_ind.
  - split; [reflexivity|]. apply app_inj_tail in E. tauto.
  - clear IHq. exfalso.
    replace (lg ++ SEPARATION_DONE :: q ++ [y])
      with ((lg ++ SEPARATION_DONE :: q) ++ [y]) in E
      by (rewrite <- app_assoc; reflexivity).
    apply app_inj_tail in E. destruct E as [<- _].
    apply Forall_app in HL. destruct HL as [_ HL].
    inversion HL; congruence.
Qed.

Lemma sentinel_not_taken (lg L : list string) :
  lg = L ++ [SEPARATION_DONE] ->
  Forall (fun m => m <> SEPARATION_DONE) lg -> False.
Proof.
  intros -> H. apply Forall_app in H. destruct H as [_ H].
  inversion H; congruence.
Qed.

Lemma Logger_handle_single (r : LogRecord) (j : Job) :
  Logger_handle r (mkSystem [0] [j]) =
  (mkSystem [0] [match relay r with Some m => put m j | None => j end],
   match relay r with Some m => [EPut 0 m] | None => [] end).
Proof.
  unfold Logger_handle, relay. cbn [handlers jobs callHandlers].
  destruct (Nat.leb INFO (levelno r)); [|reflexivity].
  destruct (Nat.leb DEBUG (levelno r)); [|reflexivity].
  unfold QueueHandler_emit. destruct (format r); reflexivity.
Qed.

Lemma outcome_events_app (i : nat) (t1 t2 : list event) :
  outcome_events i (t1 ++ t2) = outcome_events i t1 ++ outcome_events i t2.
Proof. apply List.filter_app. Qed.

Lemma yields_app (i : nat) (t1 t2 : list event) :
  yields i (t1 ++ t2) = yields i t1 ++ yields i t2.
Proof. apply omap_app. Qed.

Section SingleJobFacts.

Variable module_file : string.
Variable cwd : list string.
Variable p : PurePath.
Variable b : behaviour.

Local Abbreviation step := (step module_file cwd).
Local Abbreviation run := (run module_file cwd).
Local Abbreviation single_inv := (single_inv module_file cwd p b).

Lemma worker_at_alive t rf re hist oe :
  worker_at b t rf re hist oe -> is_alive t = true ->
  Forall (fun m => m <> SEPARATION_DONE) hist.
Proof.
  intros H Ha. destruct H as [done evs E | | t ->].
  - apply relay_lines_not_sentinel.
  - apply relay_lines_not_sentinel.
  - destruct (escapes (snd b)); discriminate.
Qed.

Lemma worker_at_dead t rf re hist oe :
  worker_at b t rf re hist oe -> is_alive t = false ->
  hist = relay_lines (fst b) ++ [SEPARATION_DONE] /\
  rf = recorded_files (snd b) /\ re = recorded_error (snd b).
Proof.
  intros H Ha. destruct H as [done evs E | | t ->]; try discriminate. auto.
Qed.

Lemma consumer_at_grow g lg q hist hs l :
  consumer_at b g lg q hist hs ->
  Forall (fun m => m <> SEPARATION_DONE) hist ->
  hs = [0] /\ consumer_at b g lg (q ++ l) (hist ++ l) hs.
Proof.
  intros H Hh. destruct H as [g lg q Hg Hl | lg q Hl E | g Hg | g Hg].
  - split; [reflexivity|]. rewrite <- app_assoc. constructor; assumption.
  - exfalso. rewrite E in Hh. apply Forall_app in Hh. destruct Hh as [_ Hh].
    inversion Hh; congruence.
  - exfalso. apply Forall_app in Hh. destruct Hh as [_ Hh].
    inversion Hh; congruence.
  - exfalso. apply Forall_app in Hh. destruct Hh as [_ Hh].
    inversion Hh; congruence.
Qed.

Lemma single_inv_worker s tr s' e :
  single_inv s tr -> worker_step 0 s = (s', e) -> single_inv s' (tr ++ e).
Proof.
  intros (j & hist & Hj & Hp & Hw & Hc & Hy) Hs.
  destruct s as [hs js]. simpl in *. subst js.
  unfold worker_step in Hs. simpl in Hs.
  destruct j as [ap q rf re t g lg]. simpl in *.
  remember (outcome_events 0 tr) as oe eqn:H.
  destruct Hw as [done evs E | | t ->].
  - destruct evs as [|r evs].
    + (* separator.separate ends *)
      rewrite app_nil_r in E. rewrite <- E in Hc.
      assert (Hs' : (s', e) =
                (mkSystem hs [mkJob ap q (recorded_files (snd b)) (recorded_error (snd b))
                                (TFinally (escapes (snd b))) g lg],
                 stores (snd b))).
      { rewrite <- Hs. destruct (snd b) as [f|ex]; simpl; [reflexivity|].
        destruct (is_Exception ex); reflexivity. }
      injection Hs' as -> ->.
      exists (mkJob ap q (recorded_files (snd b)) (recorded_error (snd b))
                (TFinally (escapes (snd b))) g lg), (relay_lines (fst b)).
      simpl. repeat split; try assumption.
      * rewrite outcome_events_app, <- H. simpl.
        replace (outcome_events 0 (stores (snd b))) with (stores (snd b)).
        -- constructor.
        -- destruct (snd b) as [f|ex]; simpl; [reflexivity|].
           destruct (is_Exception ex); reflexivity.
      * rewrite yields_app, Hy.
        replace (yields 0 (stores (snd b))) with (@nil (string * option (list string))).
        -- apply app_nil_r.
        -- destruct (snd b) as [f|ex]; simpl; [reflexivity|].
           destruct (is_Exception ex); reflexivity.
    + (* a record is logged *)
      pose proof (consumer_at_grow _ _ _ _ _
                    (match relay r with Some m => [m] | None => [] end)
                    Hc (relay_lines_not_sentinel done)) as [-> Hc'].
      rewrite Logger_handle_single in Hs. injection Hs as <- <-.
      exists (mkJob ap (q ++ match relay r with Some m => [m] | None => [] end)
                None None (TRunning evs (snd b)) g lg),
             (relay_lines (done ++ [r])).
      repeat split.
      * destruct (relay r); [reflexivity|]. rewrite app_nil_r. reflexivity.
      * assumption.
      * simpl. rewrite outcome_events_app, <- H.
        replace (outcome_events 0 match relay r with Some m => [EPut 0 m] | None => [] end)
          with (@nil event).
        -- apply at_running. rewrite <- app_assoc. exact E.
        -- destruct (relay r) as [m|] eqn:Er; [|reflexivity]. simpl.
           rewrite (eqb_sentinel_false m); [reflexivity|].
           eapply relay_not_sentinel; eassumption.
      * simpl. rewrite relay_lines_app. unfold relay_lines at 2. simpl.
        destruct (relay r); exact Hc'.
      * simpl. rewrite yields_app, Hy.
        destruct (relay r); simpl; apply app_nil_r.
  - (* the finally clause *)
    pose proof (consumer_at_grow _ _ _ _ _ [SEPARATION_DONE]
                  Hc (relay_lines_not_sentinel (fst b))) as [-> Hc'].
    injection Hs as <- <-.
    eexists _, _. simpl. repeat split.
    + assumption.
    + simpl. rewrite outcome_events_app, <- H. simpl.
      apply at_ended. destruct (escapes (snd b)); reflexivity.
    + simpl. exact Hc'.
    + simpl. rewrite yields_app, Hy. apply app_nil_r.
  - (* the thread has ended *)
    assert (Hs' : (s', e) = (mkSystem hs [mkJob ap q (recorded_files (snd b))
                                            (recorded_error (snd b))
                                            (if escapes (snd b) then TCrashed else TDone) g lg], [])).
    { rewrite <- Hs. destruct (escapes (snd b)); reflexivity. }
    injection Hs' as -> ->. rewrite app_nil_r.
    eexists _, _. simpl. repeat split; try eassumption.
    rewrite <- H. apply at_ended. reflexivity.
Qed.
Lemma worker_at_sentinel t rf re hist oe :
  worker_at b t rf re hist oe -> In SEPARATION_DONE hist ->
  hist = relay_lines (fst b) ++ [SEPARATION_DONE] /\
  rf = recorded_files (snd b) /\ re = recorded_error (snd b).
Proof.
  intros H Hin. destruct (is_alive t) eqn:Ha.
  - exfalso. pose proof (worker_at_alive _ _ _ _ _ H Ha) as HF.
    rewrite Forall_forall in HF. apply (HF SEPARATION_DONE); [|reflexivity].
    apply list_elem_of_In. exact Hin.
  - eapply worker_at_dead; eassumption.
Qed.

Lemma single_inv_consumer s tr s' e :
  single_inv s tr -> consumer_step module_file cwd 0 s = (s', e) -> single_inv s' (tr ++ e).
Proof.
  intros (j & hist & Hj & Hp & Hw & Hc & Hy) Hs.
  destruct s as [hs js]. simpl in *. subst js.
  unfold consumer_step in Hs. simpl in Hs.
  destruct j as [ap q rf re t g lg]. simpl in *.
  destruct Hc as [g lg q Hg Hl | lg q Hl E | g Hg | g Hg].
  - destruct Hg as [-> | [-> | [-> | ->]]].
    + (* log_q.get(timeout=0.2) *)
      destruct q as [|line q].
      * injection Hs as <- <-. rewrite app_nil_r.
        eexists _, _; repeat split; simpl; try eassumption.
        apply (at_polling b GAlive lg []); auto.
      * destruct (String.eqb_spec line SEPARATION_DONE) as [-> | Hne].
        -- injection Hs as <- <-. rewrite app_nil_r.
           destruct (worker_at_sentinel _ _ _ _ _ Hw) as (Eh & -> & ->).
           { apply in_or_app. right. left. reflexivity. }
           apply sentinel_last in Eh as Eh'; [|apply relay_lines_not_sentinel].
           destruct Eh' as [-> ->].
           eexists _, _; repeat split; simpl; try eassumption.
           apply at_drained. auto.
        -- injection Hs as <- <-.
           eexists _, _; repeat split; simpl; try eassumption.
           ++ rewrite outcome_events_app. simpl. rewrite app_nil_r. exact Hw.
           ++ replace (lg ++ line :: q) with ((lg ++ [line]) ++ q)
                by (rewrite <- app_assoc; reflexivity).
              apply (at_polling b GYield); auto.
              apply Forall_app. split; [assumption|]. constructor; [assumption|constructor].
           ++ rewrite yields_app, Hy, intermediate_snoc, !app_nil_r. reflexivity.
    + injection Hs as <- <-. rewrite app_nil_r.
      eexists _, _; repeat split; simpl; try eassumption.
      apply (at_polling b GPoll); auto.
    + destruct (is_alive t) eqn:Ha; injection Hs as <- <-; rewrite app_nil_r;
        eexists _, _; repeat split; simpl; try eassumption.
      * apply (at_polling b GPoll); auto.
      * apply at_empty; [assumption|].
        eapply worker_at_dead; eassumption.
    + injection Hs as <- <-. rewrite app_nil_r.
      eexists _, _; repeat split; simpl; try eassumption.
      apply (at_polling b GClosed); auto.
  - destruct q as [|line q].
    + exfalso. rewrite app_nil_r in E. eapply sentinel_not_taken; eassumption.
    + injection Hs as <- <-. rewrite app_nil_r.
      eexists _, _; repeat split; simpl; try eassumption.
      apply (at_polling b GPoll); auto.
  - destruct Hg as [-> | ->]; injection Hs as <- <-; rewrite app_nil_r;
      eexists _, _; repeat split; simpl; try eassumption.
    + apply at_drained. auto.
    + apply at_detached. auto.
  - destruct (worker_at_sentinel _ _ _ _ _ Hw) as (_ & -> & ->).
    { apply in_or_app. right. left. reflexivity. }
    destruct Hg as [-> | ->].
    + subst ap.
      change (final_pair module_file cwd _) with (expected_final module_file cwd p b) in Hs.
      destruct (expected_final module_file cwd p b) as [text files] eqn:Ef.
      injection Hs as <- <-.
      eexists _, _; repeat split; simpl; try eassumption.
      * rewrite outcome_events_app. simpl. rewrite app_nil_r. exact Hw.
      * apply at_detached. auto.
      * rewrite yields_app, Hy, app_nil_r, Ef. reflexivity.
    + injection Hs as <- <-. rewrite app_nil_r.
      eexists _, _; repeat split; simpl; try eassumption.
      apply at_detached. auto.
Qed.

Lemma single_inv_close s tr s' e :
  single_inv s tr -> close_step 0 s = (s', e) -> single_inv s' (tr ++ e).
Proof.
  intros (j & hist & Hj & Hp & Hw & Hc & Hy) Hs.
  destruct s as [hs js]. simpl in *. subst js.
  unfold close_step in Hs. simpl in Hs.
  destruct (gen j) eqn:Eg; injection Hs as <- <-; rewrite app_nil_r;
    try (exists j, hist; rewrite Eg; auto; fail).
  destruct j as [ap q rf re t g lg]. simpl in *. subst g.
  eexists _, _; repeat split; simpl; try eassumption.
  inversion Hc; subst; try (destruct H; congruence).
  apply (at_polling b GClosed); auto.
Qed.

Lemma single_inv_other (a : action) (i : nat) s tr s' e :
  single_inv s tr -> a = Worker (S i) \/ a = Consumer (S i) \/ a = Close (S i) ->
  step a s = (s', e) -> single_inv s' (tr ++ e).
Proof.
  intros Hinv Ha Hs. assert (Hj : jobs s !! S i = None).
  { destruct Hinv as (j & _ & -> & _). reflexivity. }
  destruct Ha as [-> | [-> | ->]]; simpl in Hs;
    unfold worker_step, consumer_step, close_step in Hs; rewrite Hj in Hs;
    injection Hs as <- <-; rewrite app_nil_r; exact Hinv.
Qed.

Lemma single_inv_step a s tr s' e :
  single_inv s tr -> step a s = (s', e) -> single_inv s' (tr ++ e).
Proof.
  intros Hinv Hs. destruct a as [[|i] | [|i] | [|i]];
    eauto using single_inv_worker, single_inv_consumer, single_inv_close, single_inv_other.
Qed.

Lemma single_inv_started : single_inv (started p b) [].
Proof.
  exists (mkJob p [] None None (TRunning (fst b) (snd b)) GPoll []), [].
  simpl. repeat split.
  - apply (at_running b [] (fst b)). reflexivity.
  - apply (at_polling b GPoll [] []); auto.
Qed.

Lemma single_inv_run sched s tr :
  run sched (started p b) = (s, tr) -> single_inv s tr.
Proof.
  apply (run_invariant module_file cwd single_inv).
  - apply single_inv_started.
  - intros a s1 tr1 s2 e. apply single_inv_step.
Qed.


Lemma worker_step_fuel s tr j s' e :
  single_inv s tr -> jobs s = [j] -> worker_step 0 s = (s', e) ->
  exists j', jobs s' = [j'] /\ gen j' = gen j /\
             worker_fuel (thread j') = pred (worker_fuel (thread j)).
Proof.
  intros (j0 & hist & Hj0 & Hp & Hw & Hc & Hy) Hj Hs.
  rewrite Hj in Hj0. injection Hj0 as <-.
  destruct s as [hs js]. simpl in *. subst js.
  unfold worker_step in Hs. simpl in Hs.
  destruct j as [ap q rf re t g lg]. simpl in *.
  destruct t as [[|r evs] out | pending | | ].
  - destruct out as [f|ex]; [|destruct (is_Exception ex)];
      injection Hs as <- <-; eexists; repeat split; simpl; reflexivity.
  - assert (hs = [0]) as ->.
    { inversion Hw as [done evs' E | | t' Et]; subst.
      - destruct (consumer_at_grow _ _ _ _ _ [] Hc (relay_lines_not_sentinel _)) as [E0 _].
        exact E0.
      - destruct (escapes (snd b)); discriminate. }
    rewrite Logger_handle_single in Hs. injection Hs as <- <-.
    destruct (relay r); eexists; repeat split; simpl; lia.
  - injection Hs as <- <-. eexists; repeat split; simpl.
    destruct pending; reflexivity.
  - injection Hs as <- <-. eexists; repeat split; reflexivity.
  - injection Hs as <- <-. eexists; repeat split; reflexivity.
Qed.

Lemma worker_fuel_dead (t : thread_state) :
  worker_fuel t = 0 <-> is_alive t = false.
Proof. destruct t; simpl; split; intros H; try reflexivity; try discriminate; lia. Qed.

Lemma run_workers n : forall s tr j,
  single_inv s tr -> jobs s = [j] -> worker_fuel (thread j) <= n ->
  exists s' e j',
    run (repeat (Worker 0) n) s = (s', e) /\ single_inv s' (tr ++ e) /\
    jobs s' = [j'] /\ gen j' = gen j /\ is_alive (thread j') = false.
Proof.
  induction n as [|n IH]; intros s tr j Hinv Hj Hn.
  - exists s, [], j. rewrite app_nil_r. repeat split; try assumption.
    apply worker_fuel_dead. lia.
  - simpl. destruct (worker_step 0 s) as [s1 e1] eqn:E1.
    destruct (worker_step_fuel _ _ _ _ _ Hinv Hj E1) as (j1 & Hj1 & Hg1 & Hf1).
    pose proof (single_inv_worker _ _ _ _ Hinv E1) as Hinv1.
    destruct (IH s1 (tr ++ e1) j1 Hinv1 Hj1 ltac:(lia)) as (s' & e & j' & Hr & Hi & Hj' & Hg & Ha).
    exists s', (e1 ++ e), j'. rewrite Hr. rewrite app_assoc.
    repeat split; try assumption. congruence.
Qed.

Lemma consumer_step_fuel s tr j s' e :
  single_inv s tr -> jobs s = [j] -> is_alive (thread j) = false ->
  consumer_step module_file cwd 0 s = (s', e) ->
  exists j', jobs s' = [j'] /\ thread j' = thread j /\
             (gen j <> GClosed -> gen j' <> GClosed) /\
             consumer_fuel j' = pred (consumer_fuel j).
Proof.
  intros (j0 & hist & Hj0 & Hp & Hw & Hc & Hy) Hj Ha Hs.
  rewrite Hj in Hj0. injection Hj0 as <-.
  destruct s as [hs js]. simpl in *. subst js.
  unfold consumer_step in Hs. simpl in Hs.
  destruct (worker_at_dead _ _ _ _ _ Hw Ha) as (Eh & _ & _).
  destruct j as [ap q rf re t g lg]. unfold consumer_fuel. simpl in *.
  destruct Hc as [g lg q Hg Hl | lg q Hl E | g Hg | g Hg].
  - destruct Hg as [-> | [-> | [-> | ->]]].
    + destruct q as [|line q].
      * exfalso. rewrite app_nil_r in Eh. exact (sentinel_not_taken _ _ Eh Hl).
      * destruct (String.eqb_spec line SEPARATION_DONE) as [-> | Hne].
        -- apply sentinel_last in Eh; [|apply relay_lines_not_sentinel].
           destruct Eh as [-> ->]. injection Hs as <- <-.
           eexists; repeat split; simpl; congruence.
        -- injection Hs as <- <-. eexists; repeat split; simpl; try congruence; lia.
    + injection Hs as <- <-. eexists; repeat split; simpl; try congruence; lia.
    + rewrite Ha in Hs. injection Hs as <- <-.
      eexists; repeat split; simpl; try congruence; lia.
    + injection Hs as <- <-. eexists; repeat split; simpl; congruence.
  - destruct q as [|line q].
    + exfalso. rewrite app_nil_r in E. exact (sentinel_not_taken _ _ E Hl).
    + injection Hs as <- <-. eexists; repeat split; simpl; try congruence; lia.
  - destruct Hg as [-> | ->]; injection Hs as <- <-;
      eexists; repeat split; simpl; congruence.
  - destruct Hg as [-> | ->].
    + destruct (final_pair _ _ _) as [text files]. injection Hs as <- <-.
      eexists; repeat split; simpl; congruence.
    + injection Hs as <- <-. eexists; repeat split; simpl; congruence.
Qed.

Lemma run_consumers n : forall s tr j,
  single_inv s tr -> jobs s = [j] -> is_alive (thread j) = false ->
  exists s' e j',
    run (repeat (Consumer 0) n) s = (s', e) /\ single_inv s' (tr ++ e) /\
    jobs s' = [j'] /\ thread j' = thread j /\
    (gen j <> GClosed -> gen j' <> GClosed) /\
    consumer_fuel j' = consumer_fuel j - n.
Proof.
  induction n as [|n IH]; intros s tr j Hinv Hj Ha.
  - exists s, [], j. rewrite app_nil_r. repeat split; try assumption; auto. lia.
  - simpl. destruct (consumer_step module_file cwd 0 s) as [s1 e1] eqn:E1.
    destruct (consumer_step_fuel _ _ _ _ _ Hinv Hj Ha E1) as (j1 & Hj1 & Ht1 & Hg1 & Hf1).
    pose proof (single_inv_consumer _ _ _ _ Hinv E1) as Hinv1.
    destruct (IH s1 (tr ++ e1) j1 Hinv1 Hj1 ltac:(congruence))
      as (s' & e & j' & Hr & Hi & Hj' & Ht & Hg & Hf).
    exists s', (e1 ++ e), j'. rewrite Hr. rewrite app_assoc.
    repeat split; try assumption; try congruence; auto. lia.
Qed.

Lemma consumer_fuel_done (j : Job) :
  consumer_fuel j = 0 -> gen j <> GClosed -> gen j = GDone.
Proof. unfold consumer_fuel. destruct (gen j); intros; try lia; congruence. Qed.


Lemma single_job sched s tr j :
  run sched (started p b) = (s, tr) -> jobs s !! 0 = Some j -> jobs s = [j].
Proof.
  intros Hr Hj. apply single_inv_run in Hr.
  destruct Hr as (j0 & _ & Hj0 & _). rewrite Hj0 in Hj |- *.
  injection Hj as ->. reflexivity.
Qed.

Lemma worker_fuel_bound t rf re hist oe :
  worker_at b t rf re hist oe -> worker_fuel t <= length (fst b) + 2.
Proof.
  intros [done evs E | | t' ->]; simpl.
  - rewrite E, length_app. lia.
  - lia.
  - destruct (escapes (snd b)); simpl; lia.
Qed.

Lemma consumer_fuel_bound j hs :
  consumer_at b (gen j) (logs j) (log_q j)
    (relay_lines (fst b) ++ [SEPARATION_DONE]) hs ->
  consumer_fuel j <= 2 * length (log_q j) + 4 /\
  length (log_q j) <= length (relay_lines (fst b)) + 1.
Proof.
  intros H. unfold consumer_fuel.
  assert (Hq : length (log_q j) <= length (relay_lines (fst b)) + 1).
  { inversion H as [g lg q Hg Hl Eg El Eq Eh | lg q Hl E Eg El Eq Eh | g Hg | g Hg].
    - apply (f_equal (@length string)) in Eh. rewrite !length_app in Eh. simpl in Eh. lia.
    - apply (f_equal (@length string)) in Eh. rewrite !length_app in Eh. simpl in Eh. lia.
    - simpl. lia.
    - simpl. lia. }
  split; [|exact Hq]. destruct (gen j); lia.
Qed.

(** A run the caller has not closed extends to a finished one: the thread
    is given the steps it still needs, then the generator. *)
Lemma single_completes sched s tr j :
  run sched (started p b) = (s, tr) -> jobs s !! 0 = Some j -> gen j <> GClosed ->
  exists s' tr' j',
    run (sched ++ repeat (Worker 0) (length (fst b) + 2)
               ++ repeat (Consumer 0) (2 * length (relay_lines (fst b)) + 6))
        (started p b) = (s', tr') /\
    jobs s' !! 0 = Some j' /\ gen j' = GDone.
Proof.
  intros Hr Hj Hg. pose proof (single_job _ _ _ _ Hr Hj) as Hj1.
  pose proof (single_inv_run _ _ _ Hr) as Hinv.
  assert (Hf : worker_fuel (thread j) <= length (fst b) + 2).
  { destruct Hinv as (j0 & hist & Hj0 & _ & Hw & _). rewrite Hj1 in Hj0.
    injection Hj0 as <-. eapply worker_fuel_bound; eassumption. }
  destruct (run_workers _ _ _ _ Hinv Hj1 Hf) as (s1 & e1 & j1 & Hr1 & Hinv1 & Hj1' & Hg1 & Ha1).
  destruct (run_consumers (2 * length (relay_lines (fst b)) + 6) _ _ _ Hinv1 Hj1' Ha1)
    as (s2 & e2 & j2 & Hr2 & Hinv2 & Hj2 & Ht2 & Hg2 & Hf2).
  exists s2, (tr ++ e1 ++ e2), j2. rewrite run_app, Hr. cbv beta iota.
  rewrite run_app, Hr1. cbv beta iota. rewrite Hr2.
  split; [reflexivity|]. split; [rewrite Hj2; reflexivity|].
  apply consumer_fuel_done; [|apply Hg2; congruence].
  rewrite Hf2.
  destruct Hinv1 as (j0 & hist & Hj0 & _ & Hw & Hc & _). rewrite Hj1' in Hj0.
  injection Hj0 as <-.
  destruct (worker_at_dead _ _ _ _ _ Hw Ha1) as (-> & _ & _).
  apply consumer_fuel_bound in Hc. lia.
Qed.

Lemma consumer_at_done lg q hist hs :
  consumer_at b GDone lg q hist hs ->
  lg = relay_lines (fst b) /\ q = [] /\
  hist = relay_lines (fst b) ++ [SEPARATION_DONE] /\ hs = [].
Proof.
  inversion 1 as [g lg' q' Hg | | g Hg | g Hg]; subst.
  - destruct Hg as [? | [? | [? | ?]]]; discriminate.
  - destruct Hg; discriminate.
  - auto.
Qed.

(** What a finished run has yielded and left behind. *)
Lemma single_finished sched s tr j :
  run sched (started p b) = (s, tr) -> jobs s !! 0 = Some j -> gen j = GDone ->
  yields 0 tr = intermediate (relay_lines (fst b)) ++ [expected_final module_file cwd p b] /\
  logs j = relay_lines (fst b) /\ log_q j = [] /\ handlers s = [] /\
  is_alive (thread j) = false.
Proof.
  intros Hr Hj Hg. pose proof (single_job _ _ _ _ Hr Hj) as Hj1.
  destruct (single_inv_run _ _ _ Hr) as (j0 & hist & Hj0 & _ & Hw & Hc & Hy).
  rewrite Hj1 in Hj0. injection Hj0 as <-. rewrite Hg in Hy, Hc.
  destruct (consumer_at_done _ _ _ _ Hc) as (El & Eq & -> & Eh).
  rewrite El in Hy. repeat split; auto.
  destruct (is_alive (thread j)) eqn:Ha; [exfalso|reflexivity].
  pose proof (worker_at_alive _ _ _ _ _ Hw Ha) as HF.
  exact (sentinel_not_taken _ _ eq_refl HF).
Qed.

Lemma single_at sched s tr j :
  run sched (started p b) = (s, tr) -> jobs s !! 0 = Some j ->
  single_inv s tr /\ jobs s = [j] /\
  exists hist,
    worker_at b (thread j) (result_files j) (result_error j) hist (outcome_events 0 tr) /\
    consumer_at b (gen j) (logs j) (log_q j) hist (handlers s).
Proof.
  intros Hr Hj. pose proof (single_job _ _ _ _ Hr Hj) as Hj1.
  pose proof (single_inv_run _ _ _ Hr) as Hinv. split; [exact Hinv|].
  split; [exact Hj1|].
  destruct Hinv as (j0 & hist & Hj0 & _ & Hw & Hc & _).
  rewrite Hj1 in Hj0. injection Hj0 as <-. exists hist. split; assumption.
Qed.


Lemma left_polling_dead g lg q hist hs t rf re oe :
  consumer_at b g lg q hist hs -> worker_at b t rf re hist oe ->
  g = GDrain \/ g = GDetach \/ g = GFinal \/ g = GDone ->
  is_alive t = false /\ lg = relay_lines (fst b) /\ q = [].
Proof.
  intros Hc Hw Hg.
  assert (hist = relay_lines (fst b) ++ [SEPARATION_DONE] /\
          lg = relay_lines (fst b) /\ q = []) as (-> & -> & ->).
  { destruct Hc as [g lg q Hg' | | g Hg' | g Hg']; auto.
    - destruct Hg as [-> | [-> | [-> | ->]]];
        destruct Hg' as [? | [? | [? | ?]]]; discriminate.
    - destruct Hg as [? | [? | [? | ?]]]; discriminate. }
  repeat split.
  destruct (is_alive t) eqn:Ha; [exfalso|reflexivity].
  pose proof (worker_at_alive _ _ _ _ _ Hw Ha) as HF.
  exact (sentinel_not_taken _ _ eq_refl HF).
Qed.

(** With the thread ended, a generator that is still polling has a
    non-empty queue in front of it. *)
Lemma polling_fuel j hs :
  consumer_at b (gen j) (logs j) (log_q j)
    (relay_lines (fst b) ++ [SEPARATION_DONE]) hs ->
  consumer_fuel j <= 3 ->
  gen j = GDrain \/ gen j = GDetach \/ gen j = GFinal \/ gen j = GDone \/ gen j = GClosed.
Proof.
  unfold consumer_fuel. destruct j as [ap q rf re t g lg]. simpl.
  intros Hc Hf.
  assert (Hq : g = GPoll \/ g = GYield \/ g = GAlive \/ g = GEmpty -> q <> []).
  { intros Hg ->.
    inversion Hc as [g' lg' q' Hg' Hl Eg El Eq Eh | lg' q' Hl E Eg El Eq Eh | g' Hg' | g' Hg'];
      subst.
    - rewrite app_nil_r in Eh. exact (sentinel_not_taken _ _ Eh Hl).
    - rewrite app_nil_r in Eh. exact (sentinel_not_taken _ _ Eh Hl).
    - destruct Hg as [? | [? | [? | ?]]]; destruct Hg'; congruence.
    - destruct Hg as [? | [? | [? | ?]]]; destruct Hg'; congruence. }
  destruct g; auto 10; exfalso;
    (destruct q as [|x q']; [apply Hq; auto | simpl in Hf; lia]).
Qed.

(** A closed generator stays closed. *)
Lemma closed_stays a s tr j s' e :
  single_inv s tr -> jobs s = [j] -> gen j = GClosed -> step a s = (s', e) ->
  exists j', jobs s' = [j'] /\ gen j' = GClosed.
Proof.
  intros Hinv Hj Hg Hs. destruct a as [[|i] | [|i] | [|i]]; simpl in Hs.
  - destruct (worker_step_fuel _ _ _ _ _ Hinv Hj Hs) as (j' & Hj' & Hg' & _).
    exists j'. split; congruence.
  - unfold worker_step in Hs. rewrite Hj in Hs. injection Hs as <- <-. eauto.
  - unfold consumer_step in Hs. rewrite Hj in Hs. simpl in Hs. rewrite Hg in Hs.
    injection Hs as <- <-. eauto.
  - unfold consumer_step in Hs. rewrite Hj in Hs. injection Hs as <- <-. eauto.
  - unfold close_step in Hs. rewrite Hj in Hs. simpl in Hs. rewrite Hg in Hs.
    injection Hs as <- <-. eauto.
  - unfold close_step in Hs. rewrite Hj in Hs. injection Hs as <- <-. eauto.
Qed.

Lemma closed_forever sched' : forall s tr j s' tr',
  single_inv s tr -> jobs s = [j] -> gen j = GClosed ->
  run sched' s = (s', tr') ->
  exists j', jobs s' = [j'] /\ gen j' = GClosed /\ single_inv s' (tr ++ tr').
Proof.
  induction sched' as [|a sched' IH]; intros s tr j s' tr' Hinv Hj Hg Hr.
  - simpl in Hr. injection Hr as <- <-. rewrite app_nil_r. eauto.
  - simpl in Hr. destruct (step a s) as [s1 e1] eqn:E1.
    destruct (run sched' s1) as [s2 e2] eqn:E2. injection Hr as <- <-.
    destruct (closed_stays _ _ _ _ _ _ Hinv Hj Hg E1) as (j1 & Hj1 & Hg1).
    pose proof (single_inv_step _ _ _ _ _ Hinv E1) as Hinv1.
    destruct (IH _ _ _ _ _ Hinv1 Hj1 Hg1 E2) as (j' & Hj' & Hg' & Hinv').
    exists j'. rewrite app_assoc. auto.
Qed.

End SingleJobFacts.


(** ** Paths *)

Lemma splitroot_root (s : string) :
  fst (splitroot s) = "" /\ startswith s "/" = false \/
  (fst (splitroot s) = "/" \/ fst (splitroot s) = "//") /\ startswith s "/" = true.
Proof.
  unfold splitroot.
  destruct s as [|c s]; [left; split; reflexivity|].
  destruct (Ascii.eqb_spec c "/") as [-> | Hc].
  - right. split; [|reflexivity].
    destruct s as [|c1 s]; [left; reflexivity|].
    destruct (Ascii.eqb_spec c1 "/") as [-> | Hc1].
    + destruct s as [|c2 s]; [right; reflexivity|].
      destruct (Ascii.eqb_spec c2 "/") as [-> | Hc2]; [left; reflexivity|].
      right. destruct c2 as [[] [] [] [] [] [] [] []]; try reflexivity.
      congruence.
    + left. destruct c1 as [[] [] [] [] [] [] [] []]; try reflexivity.
      congruence.
  - left. split.
    + destruct c as [[] [] [] [] [] [] [] []]; try reflexivity. congruence.
    + simpl. destruct (Ascii.eqb_spec c "/"); [congruence|reflexivity].
Qed.

Lemma parse_path_root (s : string) : root (parse_path s) = fst (splitroot s).
Proof. unfold parse_path. destruct (splitroot s). reflexivity. Qed.

(** A parsed path is absolute exactly when the raw path begins with a
    slash. *)
Lemma parse_path_absolute (s : string) :
  is_absolute (parse_path s) = startswith s "/".
Proof.
  unfold is_absolute. rewrite parse_path_root.
  destruct (splitroot_root s) as [[-> ->] | [[-> | ->] ->]]; reflexivity.
Qed.

Lemma parse_path_root_cases (s : string) :
  root (parse_path s) = "" \/ root (parse_path s) = "/" \/ root (parse_path s) = "//".
Proof.
  rewrite parse_path_root.
  destruct (splitroot_root s) as [[-> _] | [[-> | ->] _]]; auto.
Qed.

Lemma absolute_is_absolute (cwd : list string) (p : PurePath) :
  is_absolute (absolute cwd p) = true.
Proof. unfold absolute. destruct (is_absolute p) eqn:E; [exact E|reflexivity]. Qed.

Lemma absolute_id (cwd : list string) (p : PurePath) :
  is_absolute p = true -> absolute cwd p = p.
Proof. unfold absolute. intros ->. reflexivity. Qed.

Lemma truediv_relative (p : PurePath) (key : string) :
  startswith key "/" = false ->
  truediv p key = mkPath (root p) (tail p ++ tail (parse_path key)).
Proof. unfold truediv. rewrite parse_path_absolute. intros ->. reflexivity. Qed.

Lemma truediv_absolute_key (p : PurePath) (key : string) :
  startswith key "/" = true -> truediv p key = parse_path key.
Proof. unfold truediv. rewrite parse_path_absolute. intros ->. reflexivity. Qed.

Lemma truediv_is_absolute (p : PurePath) (key : string) :
  is_absolute p = true -> is_absolute (truediv p key) = true.
Proof.
  intros Hp. unfold truediv. destruct (is_absolute (parse_path key)) eqn:E; [exact E|].
  exact Hp.
Qed.

Lemma normpath_from_app (a : bool) (l1 l2 : list string) : forall acc,
  normpath_from a acc (l1 ++ l2) = normpath_from a (rev (normpath_from a acc l1)) l2.
Proof.
  induction l1 as [|c l1 IH]; intros acc.
  - simpl. rewrite rev_involutive. reflexivity.
  - cbn [app normpath_from]. destruct (String.eqb c "..").
    + destruct acc as [|top acc']; [destruct a; apply IH|].
      destruct (String.eqb top ".."); apply IH.
    + apply IH.
Qed.

Lemma normpath_from_plain (a : bool) (l : list string) : forall acc,
  ~ In ".." l -> normpath_from a acc l = rev acc ++ l.
Proof.
  induction l as [|c l IH]; intros acc Hn.
  - simpl. rewrite app_nil_r. reflexivity.
  - cbn [normpath_from]. destruct (String.eqb_spec c "..") as [-> | Hc].
    + exfalso. apply Hn. left. reflexivity.
    + rewrite IH by (intros H; apply Hn; right; exact H).
      simpl. rewrite <- app_assoc. reflexivity.
Qed.

Lemma normpath_from_no_dotdot (l : list string) : forall acc,
  ~ In ".." acc -> ~ In ".." (normpath_from true acc l).
Proof.
  induction l as [|c l IH]; intros acc Hn.
  - simpl. rewrite <- in_rev. exact Hn.
  - cbn [normpath_from]. destruct (String.eqb_spec c "..") as [-> | Hc].
    + destruct acc as [|top acc']; [apply IH; exact Hn|].
      destruct (String.eqb_spec top "..") as [-> | Ht].
      * exfalso. apply Hn. left. reflexivity.
      * apply IH. intros H. apply Hn. right. exact H.
    + apply IH. intros [H|H]; [congruence|exact (Hn H)].
Qed.

(** Under an absolute directory, components without [".."] lead to a place
    under it. *)
Lemma resolved_under (base : PurePath) (more : list string) :
  is_absolute base = true -> ~ In ".." more ->
  resolved (mkPath (root base) (tail base ++ more)) = resolved base ++ more.
Proof.
  intros Ha Hn. unfold resolved.
  assert (Ea : is_absolute (mkPath (root base) (tail base ++ more)) = true) by exact Ha.
  rewrite Ea, Ha. cbn [tail]. rewrite normpath_from_app.
  rewrite normpath_from_plain by exact Hn. rewrite rev_involutive. reflexivity.
Qed.

Section Directories.

Variable module_file : string.
Variable cwd : list string.

Lemma WORKSPACE_DIR_absolute : is_absolute (WORKSPACE_DIR module_file cwd) = true.
Proof. apply absolute_is_absolute. Qed.

Lemma BASE_OUTPUT_DIR_parts :
  BASE_OUTPUT_DIR module_file cwd =
  mkPath (root (WORKSPACE_DIR module_file cwd))
         (tail (WORKSPACE_DIR module_file cwd) ++ ["output"]).
Proof. unfold BASE_OUTPUT_DIR. rewrite truediv_relative; reflexivity. Qed.

Lemma BASE_OUTPUT_DIR_absolute : is_absolute (BASE_OUTPUT_DIR module_file cwd) = true.
Proof. apply truediv_is_absolute, WORKSPACE_DIR_absolute. Qed.

Lemma WORKSPACE_DIR_root :
  root (WORKSPACE_DIR module_file cwd) = "/" \/ root (WORKSPACE_DIR module_file cwd) = "//".
Proof.
  pose proof WORKSPACE_DIR_absolute as H. unfold is_absolute in H.
  unfold WORKSPACE_DIR, absolute in *. unfold parent in *.
  destruct (is_absolute _) eqn:E; simpl in *; [|auto].
  unfold is_absolute in E. simpl in E.
  destruct (parse_path_root_cases module_file) as [R | [R | R]]; rewrite R in *; auto.
  discriminate.
Qed.

(** The path of an artifact: always absolute; its components begin with
    those of the output directory when the name the Processor gave is
    relative, and it lies under the output directory when moreover the
    name has no [".."] component. *)
Lemma artifact_path (fname : string) :
  let q := absolute cwd (truediv (BASE_OUTPUT_DIR module_file cwd) fname) in
  resolve module_file cwd fname = path_str q /\
  is_absolute q = true /\
  startswith (path_str q) "/" = true /\
  (startswith fname "/" = false ->
     path_prefix (BASE_OUTPUT_DIR module_file cwd) q /\
     (~ In ".." (tail (parse_path fname)) ->
      rooted_under (BASE_OUTPUT_DIR module_file cwd) q)) /\
  (startswith fname "/" = true -> q = parse_path fname).
Proof.
  intros q. assert (Hq : is_absolute q = true) by apply absolute_is_absolute.
  assert (Ht : is_absolute (truediv (BASE_OUTPUT_DIR module_file cwd) fname) = true)
    by apply truediv_is_absolute, BASE_OUTPUT_DIR_absolute.
  assert (Eq : q = truediv (BASE_OUTPUT_DIR module_file cwd) fname)
    by (apply absolute_id; exact Ht).
  split; [reflexivity|]. split; [exact Hq|]. split; [|split].
  - assert (Hr : root q = "/" \/ root q = "//").
    { rewrite Eq. unfold truediv.
      destruct (is_absolute (parse_path fname)) eqn:E.
      - unfold is_absolute in E.
        destruct (parse_path_root_cases fname) as [R | [R | R]]; rewrite R in *; auto.
        discriminate.
      - cbn [root]. rewrite BASE_OUTPUT_DIR_parts. cbn [root]. apply WORKSPACE_DIR_root. }
    unfold path_str. destruct Hr as [-> | ->]; reflexivity.
  - intros Hrel. rewrite Eq, truediv_relative by exact Hrel. split.
    + split; [reflexivity|]. simpl. eauto.
    + intros Hn. split; [reflexivity|]. exists (tail (parse_path fname)).
      apply resolved_under; [apply BASE_OUTPUT_DIR_absolute|exact Hn].
  - intros Habs. rewrite Eq. apply truediv_absolute_key. exact Habs.
Qed.

End Directories.

(** ** Any number of jobs *)

Lemma set_log_q_id (j : Job) : set_log_q (log_q j) j = j.
Proof. destruct j. reflexivity. Qed.

Lemma callHandlers_lookup (r : LogRecord) (hs : list nat) : forall (js : list Job) (k : nat),
  fst (callHandlers r hs js) !! k =
  (fun j => set_log_q
              (log_q j ++
               flat_map (fun h => if Nat.eqb h k
                                  then option_list (if Nat.leb DEBUG (levelno r)
                                                    then format r else None)
                                  else []) hs) j) <$> js !! k.
Proof.
  induction hs as [|h hs IH]; intros js k.
  - simpl. destruct (js !! k) as [j|]; [|reflexivity]. simpl.
    rewrite app_nil_r, set_log_q_id. reflexivity.
  - cbn [callHandlers flat_map].
    destruct (Nat.leb DEBUG (levelno r)) eqn:El.
    + unfold QueueHandler_emit. destruct (format r) as [msg|] eqn:Ef.
      * destruct (callHandlers r hs (alter (put msg) h js)) as [js2 e2] eqn:E2.
        cbn [fst]. change js2 with (fst (js2, e2)). rewrite <- E2, IH.
        destruct (Nat.eqb_spec h k) as [-> | Hne].
        -- rewrite list_lookup_alter_eq. destruct (js !! k) as [j|]; [|reflexivity].
           simpl. rewrite <- app_assoc. reflexivity.
        -- rewrite list_lookup_alter_ne by exact Hne. simpl.
           destruct (Nat.eqb h k); reflexivity.
      * destruct (callHandlers r hs js) as [js2 e2] eqn:E2.
        cbn [fst]. change js2 with (fst (js2, e2)). rewrite <- E2, IH.
        destruct (Nat.eqb h k); reflexivity.
    + destruct (callHandlers r hs js) as [js2 e2] eqn:E2.
      cbn [fst]. change js2 with (fst (js2, e2)). rewrite <- E2, IH.
      destruct (Nat.eqb h k); reflexivity.
Qed.

Lemma flat_map_nothing {A B : Type} (f : A -> list B) (l : list A) :
  (forall x, f x = []) -> flat_map f l = [].
Proof. intros H. induction l as [|x l IH]; simpl; [reflexivity|]. rewrite H, IH. reflexivity. Qed.

Lemma Logger_handle_lookup (r : LogRecord) (s : System) (k : nat) :
  jobs (fst (Logger_handle r s)) !! k =
  (fun j => set_log_q (log_q j ++ delivered r k (handlers s)) j) <$> jobs s !! k.
Proof.
  unfold Logger_handle, delivered, relay.
  destruct (Nat.leb INFO (levelno r)).
  - destruct (callHandlers r (handlers s) (jobs s)) as [js e] eqn:E.
    cbn [fst jobs]. change js with (fst (js, e)). rewrite <- E.
    apply callHandlers_lookup.
  - cbn [fst]. rewrite flat_map_nothing by (intros h; destruct (Nat.eqb h k); reflexivity).
    destruct (jobs s !! k) as [j|]; [|reflexivity]. simpl.
    rewrite app_nil_r, set_log_q_id. reflexivity.
Qed.

Lemma Logger_handle_handlers (r : LogRecord) (s : System) :
  handlers (fst (Logger_handle r s)) = handlers s.
Proof.
  unfold Logger_handle. destruct (Nat.leb INFO (levelno r)); [|reflexivity].
  destruct (callHandlers r (handlers s) (jobs s)). reflexivity.
Qed.

Lemma Forall_lookup_fmap_eq {A : Type} (P : A -> Prop) (f : nat -> A -> A) (l l' : list A) :
  (forall k, l' !! k = f k <$> l !! k) -> (forall k x, P x -> P (f k x)) ->
  Forall P l -> Forall P l'.
Proof.
  intros Hl Hf HP. apply Forall_lookup. intros k y Hy.
  rewrite Hl in Hy. destruct (l !! k) as [x|] eqn:Ex; [|discriminate].
  injection Hy as <-. apply Hf. eapply Forall_lookup_1; eassumption.
Qed.

Lemma Logger_handle_clean (r : LogRecord) (s : System) :
  logs_clean s -> logs_clean (fst (Logger_handle r s)).
Proof.
  unfold logs_clean.
  apply (Forall_lookup_fmap_eq _
           (fun k j => set_log_q (log_q j ++ delivered r k (handlers s)) j)).
  - intros k. apply Logger_handle_lookup.
  - intros k j H. exact H.
Qed.

Lemma with_job_clean (i : nat) (f : Job -> Job) (s : System) :
  (forall j, jobs s !! i = Some j ->
             Forall (fun m => m <> SEPARATION_DONE) (logs j) ->
             Forall (fun m => m <> SEPARATION_DONE) (logs (f j))) ->
  logs_clean s -> logs_clean (with_job i f s).
Proof. unfold logs_clean, with_job. intros Hf H. cbn [jobs]. apply Forall_alter; assumption. Qed.

Lemma logs_clean_lookup (s : System) (i : nat) (j : Job) :
  logs_clean s -> jobs s !! i = Some j ->
  Forall (fun m => m <> SEPARATION_DONE) (logs j).
Proof. unfold logs_clean. intros H Hj. eapply Forall_lookup_1 in H; eassumption. Qed.

Lemma waiting_lines_clean (l : list string) :
  Forall (fun m => m <> SEPARATION_DONE) l -> waiting_lines l = l.
Proof.
  unfold waiting_lines. induction 1 as [|m l Hm _ IH]; [reflexivity|].
  simpl. rewrite (eqb_sentinel_false m Hm). simpl. rewrite IH. reflexivity.
Qed.

Lemma waiting_lines_app (a b : list string) :
  waiting_lines (a ++ b) = waiting_lines a ++ waiting_lines b.
Proof. apply List.filter_app. Qed.

Lemma waiting_lines_not_sentinel (l : list string) :
  Forall (fun m => m <> SEPARATION_DONE) (waiting_lines l).
Proof.
  unfold waiting_lines. apply List.Forall_forall. intros m Hm.
  apply List.filter_In in Hm. destruct Hm as [_ Hm]. intros ->. discriminate Hm.
Qed.


Lemma puts_events_app (i : nat) (t1 t2 : list event) :
  puts i (t1 ++ t2) = puts i t1 ++ puts i t2.
Proof. apply omap_app. Qed.

Lemma callHandlers_puts (r : LogRecord) (hs : list nat) : forall (js : list Job) (k : nat),
  puts k (snd (callHandlers r hs js)) =
  flat_map (fun h => if Nat.eqb h k
                     then option_list (if Nat.leb DEBUG (levelno r)
                                       then format r else None)
                     else []) hs.
Proof.
  induction hs as [|h hs IH]; intros js k; [reflexivity|].
  cbn [callHandlers flat_map]. unfold QueueHandler_emit.
  destruct (Nat.leb DEBUG (levelno r)); [destruct (format r) as [msg|]|];
    match goal with
    | |- context [callHandlers r hs ?x] =>
        specialize (IH x k); destruct (callHandlers r hs x) as [js2 e2]
    end; cbn [snd] in *; rewrite ?puts_events_app, IH.
  - simpl. destruct (Nat.eqb h k); reflexivity.
  - destruct (Nat.eqb h k); reflexivity.
  - destruct (Nat.eqb h k); reflexivity.
Qed.

Lemma Logger_handle_puts (r : LogRecord) (s : System) (k : nat) :
  puts k (snd (Logger_handle r s)) = delivered r k (handlers s).
Proof.
  unfold Logger_handle, delivered, relay.
  destruct (Nat.leb INFO (levelno r)).
  - pose proof (callHandlers_puts r (handlers s) (jobs s) k) as H.
    destruct (callHandlers r (handlers s) (jobs s)). exact H.
  - cbn [snd]. symmetry. apply flat_map_nothing.
    intros h. destruct (Nat.eqb h k); reflexivity.
Qed.

Lemma Logger_handle_no_yield (r : LogRecord) (s : System) i text files :
  ~ In (EYield i text files) (snd (Logger_handle r s)).
Proof.
  unfold Logger_handle. destruct (Nat.leb INFO (levelno r)); [|intros []].
  assert (H : forall hs js, ~ In (EYield i text files) (snd (callHandlers r hs js))).
  { induction hs as [|h hs IH]; intros js; [intros []|].
    cbn [callHandlers]. unfold QueueHandler_emit.
    destruct (Nat.leb DEBUG (levelno r)); [destruct (format r) as [msg|]|];
      match goal with
      | |- context [callHandlers r hs ?x] =>
          specialize (IH x); destruct (callHandlers r hs x) as [js2 e2]
      end; cbn [snd] in *; try exact IH.
    intros [Hin|Hin]; [discriminate|exact (IH Hin)]. }
  specialize (H (handlers s) (jobs s)).
  destruct (callHandlers r (handlers s) (jobs s)). exact H.
Qed.

Lemma string_app_assoc (a b c : string) : (a +:+ b) +:+ c = a +:+ b +:+ c.
Proof.
  induction a as [|x a IH]; [reflexivity|].
  change (String x ((a +:+ b) +:+ c) = String x (a +:+ b +:+ c)).
  rewrite IH. reflexivity.
Qed.

Section Claims.

Variable module_file : string.
Variable cwd : list string.
Variable is_file : string -> bool.


Lemma start_first audio b s0 i :
  start is_file audio b empty_system = (s0, inr i) ->
  s0 = started (parse_path audio) b /\ i = 0.
Proof.
  unfold start. destruct (is_file _); [|discriminate].
  intros [= <- <-]. split; reflexivity.
Qed.

Lemma single_unfinished p b sched s tr j :
  run module_file cwd sched (started p b) = (s, tr) -> jobs s !! 0 = Some j -> gen j <> GDone ->
  yields 0 tr = intermediate (logs j).
Proof.
  intros Hr Hj Hg. pose proof (single_job _ _ _ _ _ _ _ _ Hr Hj) as Hj1.
  destruct (single_inv_run _ _ _ _ _ _ _ Hr) as (j0 & hist & Hj0 & _ & _ & _ & Hy).
  rewrite Hj1 in Hj0. injection Hj0 as <-. rewrite Hy.
  destruct (gen j); try apply app_nil_r. congruence.
Qed.

Lemma expected_final_error p evs e :
  is_Exception e = true -> exc_str e <> "" ->
  expected_final module_file cwd p (evs, Raises e) =
  (join newline (relay_lines evs) +:+ newline +:+ "ERROR: " +:+ exc_str e, None).
Proof.
  intros He Hs. unfold expected_final, final_pair, finished_job. simpl.
  rewrite He. simpl. destruct (exc_str e); [congruence|reflexivity].
Qed.

Lemma expected_final_returns p evs files :
  expected_final module_file cwd p (evs, Returns files) =
  (join newline (relay_lines evs), Some (map (resolve module_file cwd) (files_or_empty files))).
Proof. reflexivity. Qed.

(** C1 (amended).  Whatever the schedule, a job that the caller does not
    close can be driven to its end within a bounded number of steps; before
    the end only intermediate pairs have been yielded, and at the end the
    sequence is the intermediate pairs, one per relayed line and all with
    absent artifacts, followed by exactly one final pair.  When the
    Processor raised an [Exception] with a non-empty message, the final
    pair has absent artifacts ([None], not an empty list) and its text ends
    with ["ERROR: "] and the message.  For one relayed line followed by
    ["disk full"], the sequence is one intermediate pair and that final
    pair. *)
Theorem final_pair_on_failure_absent audio b s0 sched s tr j :
  start is_file audio b empty_system = (s0, inr 0) ->
  run module_file cwd sched s0 = (s, tr) -> jobs s !! 0 = Some j ->
  (gen j <> GClosed ->
   exists s' tr' j',
     run module_file cwd (sched ++ repeat (Worker 0) (length (fst b) + 2)
                ++ repeat (Consumer 0) (2 * length (relay_lines (fst b)) + 6)) s0
       = (s', tr') /\
     jobs s' !! 0 = Some j' /\ gen j' = GDone) /\
  (gen j <> GDone -> yields 0 tr = intermediate (logs j)) /\
  (gen j = GDone ->
   exists final,
     yields 0 tr = intermediate (relay_lines (fst b)) ++ [final] /\
     Forall (fun y => snd y = None) (intermediate (relay_lines (fst b))) /\
     length (yields 0 tr) = length (relay_lines (fst b)) + 1 /\
     (forall e, snd b = Raises e -> is_Exception e = true -> exc_str e <> "" ->
        final = (join newline (relay_lines (fst b)) +:+ newline +:+ "ERROR: " +:+ exc_str e,
                 None) /\
        endswith (fst final) ("ERROR: " +:+ exc_str e)) /\
     (forall r line, b = ([r], Raises (mkExc true "disk full")) -> relay r = Some line ->
        yields 0 tr = [(line, None); (line +:+ newline +:+ "ERROR: disk full", None)])).
Proof.
  intros Hs Hr Hj. apply start_first in Hs. destruct Hs as [-> _].
  split; [|split].
  - intros Hg. eapply single_completes; eassumption.
  - intros Hg. eapply single_unfinished; eassumption.
  - intros Hg.
    destruct (single_finished _ _ _ _ _ _ _ _ Hr Hj Hg) as (Hy & _).
    exists (expected_final module_file cwd (parse_path audio) b).
    split; [exact Hy|]. split; [apply intermediate_absent|]. split; [|split].
    + rewrite Hy, length_app, intermediate_length. reflexivity.
    + intros e Hb He Hm. destruct b as [evs out]. simpl in Hb. subst out.
      rewrite expected_final_error by assumption. split; [reflexivity|].
      exists (join newline (relay_lines evs) +:+ newline). simpl.
      rewrite string_app_assoc. reflexivity.
    + intros r line -> Hl. rewrite Hy.
      rewrite expected_final_error by (simpl; congruence).
      unfold intermediate, relay_lines. simpl. rewrite Hl. reflexivity.
Qed.









(** C10.  When [separate] returns [None] or the empty list, a finished job
    has recorded no error and its final pair carries the log text as it is,
    with no error line, and the empty list of paths. *)
Theorem falsy_result_is_empty_success audio evs files s0 sched s tr j :
  start is_file audio (evs, Returns files) empty_system = (s0, inr 0) ->
  files = None \/ files = Some [] ->
  run module_file cwd sched s0 = (s, tr) -> jobs s !! 0 = Some j -> gen j = GDone ->
  result_error j = None /\
  yields 0 tr = intermediate (relay_lines evs) ++ [(join newline (relay_lines evs), Some [])] /\
  last (yields 0 tr) = Some (join newline (relay_lines evs), Some []).
Proof.
  intros Hs Hfiles Hr Hj Hg. apply start_first in Hs. destruct Hs as [-> _].
  destruct (single_finished _ _ _ _ _ _ _ _ Hr Hj Hg) as (Hy & _ & _ & _ & Ha).
  destruct (single_at _ _ _ _ _ _ _ _ Hr Hj) as (_ & _ & hist & Hw & _).
  destruct (worker_at_dead _ _ _ _ _ _ Hw Ha) as (_ & _ & He).
  rewrite expected_final_returns in Hy.
  assert (Hfe : files_or_empty files = []) by (destruct Hfiles as [-> | ->]; reflexivity).
  rewrite Hfe in Hy. simpl in Hy.
  split; [exact He|]. split; [exact Hy|].
  rewrite Hy. apply last_snoc.
Qed.

(** C4 (amended).  When [separate] returns a list of names, the final pair
    of the finished job carries one path per name, in the order of the
    names; each path is absolute; its components begin with those of
    [BASE_OUTPUT_DIR] whenever the name is relative (does not begin with a
    slash), and it lies under [BASE_OUTPUT_DIR] whenever the name is
    relative and has no [".."] component. *)
Theorem artifact_paths_of_success audio evs files s0 sched s tr j :
  start is_file audio (evs, Returns (Some files)) empty_system = (s0, inr 0) ->
  run module_file cwd sched s0 = (s, tr) -> jobs s !! 0 = Some j -> gen j = GDone ->
  exists paths,
    last (yields 0 tr) = Some (join newline (relay_lines evs), Some paths) /\
    length paths = length files /\
    forall k fname, files !! k = Some fname ->
      let q := absolute cwd (truediv (BASE_OUTPUT_DIR module_file cwd) fname) in
      paths !! k = Some (path_str q) /\
      is_absolute q = true /\
      startswith (path_str q) "/" = true /\
      (startswith fname "/" = false ->
         path_prefix (BASE_OUTPUT_DIR module_file cwd) q /\
         (~ In ".." (tail (parse_path fname)) ->
          rooted_under (BASE_OUTPUT_DIR module_file cwd) q)).
Proof.
  intros Hs Hr Hj Hg. apply start_first in Hs. destruct Hs as [-> _].
  destruct (single_finished _ _ _ _ _ _ _ _ Hr Hj Hg) as (Hy & _).
  rewrite expected_final_returns in Hy.
  assert (Hfe : files_or_empty (Some files) = files) by (destruct files; reflexivity).
  rewrite Hfe in Hy. exists (map (resolve module_file cwd) files).
  split; [rewrite Hy; apply last_snoc|]. split; [apply length_map|].
  intros k fname Hk q.
  destruct (artifact_path module_file cwd fname) as (Er & Ha & Hsl & Hrel & _).
  split; [|auto].
  change (map (resolve module_file cwd) files) with (resolve module_file cwd <$> files).
  rewrite list_lookup_fmap, Hk. simpl. rewrite Er. reflexivity.
Qed.

(** C7.  Once the thread has ended, a generator that is still polling
    leaves the loop within [2 * n + 1] of its own steps, [n] being the
    length of the queue, which is at most the number of relayed lines plus
    one; no step of another thread is needed.  When [separate] logs
    nothing and returns, the job can be driven to its end in two steps of
    the thread and six of the generator, and a finished job has yielded
    exactly one pair, the final one. *)
Theorem polling_loop_terminates audio b s0 sched s tr j :
  start is_file audio b empty_system = (s0, inr 0) ->
  run module_file cwd sched s0 = (s, tr) -> jobs s !! 0 = Some j ->
  (is_alive (thread j) = false -> gen j <> GClosed ->
     length (log_q j) <= length (relay_lines (fst b)) + 1 /\
     exists s' tr' j',
       run module_file cwd (repeat (Consumer 0) (2 * length (log_q j) + 1)) s = (s', tr') /\
       jobs s' !! 0 = Some j' /\
       (gen j' = GDrain \/ gen j' = GDetach \/ gen j' = GFinal \/ gen j' = GDone)) /\
  (forall files, b = ([], Returns files) -> gen j = GDone ->
     yields 0 tr = [("", Some (map (resolve module_file cwd) (files_or_empty files)))]) /\
  (forall files, b = ([], Returns files) -> gen j <> GClosed ->
     exists s' tr' j',
       run module_file cwd (sched ++ repeat (Worker 0) 2 ++ repeat (Consumer 0) 6) s0
         = (s', tr') /\
       jobs s' !! 0 = Some j' /\ gen j' = GDone /\ length (yields 0 tr') = 1).
Proof.
  intros Hs Hr Hj. apply start_first in Hs. destruct Hs as [-> _].
  destruct (single_at _ _ _ _ _ _ _ _ Hr Hj) as (Hinv & Hj1 & hist & Hw & Hc).
  split; [|split].
  - intros Ha Hg. destruct (worker_at_dead _ _ _ _ _ _ Hw Ha) as (-> & _ & _).
    destruct (consumer_fuel_bound _ _ _ Hc) as (Hf & Hq). split; [exact Hq|].
    destruct (run_consumers module_file cwd _ b (2 * length (log_q j) + 1) _ _ _ Hinv Hj1 Ha)
      as (s1 & e1 & j1 & Hr1 & Hinv1 & Hj1' & Ht1 & Hg1 & Hf1).
    exists s1, e1, j1. split; [exact Hr1|]. split; [rewrite Hj1'; reflexivity|].
    destruct Hinv1 as (j0 & hist1 & Hj0 & _ & Hw1 & Hc1 & _). rewrite Hj1' in Hj0.
    injection Hj0 as <-.
    assert (Ha1 : is_alive (thread j1) = false) by congruence.
    destruct (worker_at_dead _ _ _ _ _ _ Hw1 Ha1) as (-> & _ & _).
    destruct (polling_fuel _ _ _ Hc1 ltac:(lia)) as [? | [? | [? | [? | Hcl]]]]; auto.
    exfalso. exact (Hg1 Hg Hcl).
  - intros files -> Hg.
    destruct (single_finished _ _ _ _ _ _ _ _ Hr Hj Hg) as (Hy & _).
    rewrite Hy. reflexivity.
  - intros files -> Hg.
    destruct (single_completes _ _ _ _ _ _ _ _ Hr Hj Hg) as (s1 & tr1 & j1 & Hr1 & Hj1' & Hg1).
    exists s1, tr1, j1. split; [exact Hr1|]. split; [exact Hj1'|]. split; [exact Hg1|].
    destruct (single_finished _ _ _ _ _ _ _ _ Hr1 Hj1' Hg1) as (Hy & _).
    rewrite Hy. reflexivity.
Qed.

(** C6 (what the code does).  [removeHandler] is reached only when the
    body runs to line 116.  Once the caller has closed the generator at
    the yield of line 107, the handler of the job stays on the logger's
    list whatever runs afterwards. *)
Theorem close_leaves_handler_attached audio b s0 sched s tr j sched' s' tr' :
  start is_file audio b empty_system = (s0, inr 0) ->
  run module_file cwd sched s0 = (s, tr) -> jobs s !! 0 = Some j -> gen j = GClosed ->
  run module_file cwd sched' s = (s', tr') ->
  handlers s' = [0] /\ exists j', jobs s' !! 0 = Some j' /\ gen j' = GClosed.
Proof.
  intros Hs Hr Hj Hg Hr'. apply start_first in Hs. destruct Hs as [-> _].
  destruct (single_at _ _ _ _ _ _ _ _ Hr Hj) as (Hinv & Hj1 & _).
  destruct (closed_forever module_file cwd _ b _ _ _ _ _ _ Hinv Hj1 Hg Hr')
    as (j' & Hj' & Hg' & Hinv').
  split; [|exists j'; rewrite Hj'; auto].
  destruct Hinv' as (j0 & hist & Hj0 & _ & _ & Hc & _). rewrite Hj' in Hj0.
  injection Hj0 as <-. rewrite Hg' in Hc.
  inversion Hc as [g lg q Hx | | g Hx | g Hx]; subst; try reflexivity;
    destruct Hx; discriminate.
Qed.

(** C9.  When the input path does not name a file, the first [next()]
    raises [FileNotFoundError] and leaves the system as it was: no job, so
    no queue and no thread, and no handler on the logger. *)
Theorem missing_input_starts_nothing audio b s :
  is_file (path_str (parse_path audio)) = false ->
  start is_file audio b s =
    (s, inl (FileNotFoundError ("Uploaded file not found: " +:+ audio))) /\
  jobs (fst (start is_file audio b s)) = jobs s /\
  handlers (fst (start is_file audio b s)) = handlers s.
Proof. unfold start. intros ->. auto. Qed.

(** ** What a step does to each job *)

Lemma worker_step_clean i s s' e :
  logs_clean s -> worker_step i s = (s', e) -> logs_clean s'.
Proof.
  intros Hc Hs. unfold worker_step in Hs.
  destruct (jobs s !! i) as [j|] eqn:Hj; [|injection Hs as <- <-; exact Hc].
  destruct (thread j) as [[|r evs] out | pending | | ].
  - destruct out as [f|ex]; [|destruct (is_Exception ex)]; injection Hs as <- <-;
      (apply with_job_clean; [intros j0 _ H; exact H | exact Hc]).
  - pose proof (Logger_handle_clean r s Hc) as Hc1.
    destruct (Logger_handle r s) as [s1 e1]. injection Hs as <- <-.
    apply with_job_clean; [intros j0 _ H; exact H | exact Hc1].
  - injection Hs as <- <-.
    apply with_job_clean; [intros j0 _ H; exact H | exact Hc].
  - injection Hs as <- <-. exact Hc.
  - injection Hs as <- <-. exact Hc.
Qed.

Lemma snoc_clean (l : list string) (line : string) :
  Forall (fun m => m <> SEPARATION_DONE) l -> String.eqb line SEPARATION_DONE = false ->
  Forall (fun m => m <> SEPARATION_DONE) (l ++ [line]).
Proof.
  intros Hl Hline. apply Forall_app. split; [exact Hl|].
  constructor; [|constructor]. intros ->. discriminate Hline.
Qed.

Lemma consumer_step_clean i s s' e :
  logs_clean s -> consumer_step module_file cwd i s = (s', e) -> logs_clean s'.
Proof.
  intros Hc Hs. unfold consumer_step in Hs.
  destruct (jobs s !! i) as [j|] eqn:Hj; [|injection Hs as <- <-; exact Hc].
  assert (Hkeep : forall f, (forall j0, logs (f j0) = logs j0) -> logs_clean (with_job i f s)).
  { intros f Hf. apply with_job_clean; [|exact Hc]. intros j0 _ H. rewrite Hf. exact H. }
  assert (Hsnoc : forall f line, String.eqb line SEPARATION_DONE = false ->
                    (forall j0, logs (f j0) = logs j0 ++ [line]) ->
                    logs_clean (with_job i f s)).
  { intros f line Hline Hf. apply with_job_clean; [|exact Hc]. intros j0 _ H.
    rewrite Hf. apply snoc_clean; assumption. }
  destruct (gen j).
  - destruct (log_q j) as [|line q].
    + injection Hs as <- <-. apply Hkeep; reflexivity.
    + destruct (String.eqb line SEPARATION_DONE) eqn:El; injection Hs as <- <-.
      * apply Hkeep; reflexivity.
      * eapply Hsnoc; [exact El|reflexivity].
  - injection Hs as <- <-. apply Hkeep; reflexivity.
  - destruct (is_alive (thread j)); injection Hs as <- <-; apply Hkeep; reflexivity.
  - destruct (log_q j); injection Hs as <- <-; apply Hkeep; reflexivity.
  - destruct (log_q j) as [|line q].
    + injection Hs as <- <-. apply Hkeep; reflexivity.
    + destruct (String.eqb line SEPARATION_DONE) eqn:El; injection Hs as <- <-.
      * apply Hkeep; reflexivity.
      * eapply Hsnoc; [exact El|reflexivity].
  - injection Hs as <- <-. apply (Hkeep (set_gen GFinal)). reflexivity.
  - destruct (final_pair module_file cwd j) as [text files] eqn:Ef. injection Hs as <- <-.
    apply Hkeep; reflexivity.
  - injection Hs as <- <-. exact Hc.
  - injection Hs as <- <-. exact Hc.
Qed.

Lemma close_step_clean i s s' e :
  logs_clean s -> close_step i s = (s', e) -> logs_clean s'.
Proof.
  intros Hc Hs. unfold close_step in Hs.
  destruct (jobs s !! i) as [j|]; [|injection Hs as <- <-; exact Hc].
  destruct (gen j); injection Hs as <- <-; try exact Hc.
  apply with_job_clean; [intros j0 _ H; exact H | exact Hc].
Qed.

Lemma with_job_lookup (i k : nat) (f : Job -> Job) (s : System) :
  jobs (with_job i f s) !! k = (if Nat.eqb i k then f else id) <$> jobs s !! k.
Proof.
  unfold with_job. cbn [jobs]. destruct (Nat.eqb_spec i k) as [-> | Hne].
  - apply list_lookup_alter_eq.
  - rewrite list_lookup_alter_ne by exact Hne. destruct (jobs s !! k); reflexivity.
Qed.

Lemma puts_other (i k : nat) (m : string) : i <> k -> puts k [EPut i m] = [].
Proof. intros Hne. simpl. destruct (Nat.eqb_spec i k); [contradiction|reflexivity]. Qed.

(** A step of a thread: the queue of each job grows by what the step puts
    on it; [logs] and the generator stay. *)
Lemma worker_step_job i s s' e k j :
  worker_step i s = (s', e) -> jobs s !! k = Some j ->
  (forall i0 text files, ~ In (EYield i0 text files) e) /\
  exists j', jobs s' !! k = Some j' /\
    log_q j' = log_q j ++ puts k e /\ logs j' = logs j /\ gen j' = gen j.
Proof.
  intros Hs Hk. unfold worker_step in Hs.
  destruct (jobs s !! i) as [j0|] eqn:Hj.
  2: { injection Hs as <- <-. split; [intros ? ? ? []|].
       exists j. rewrite app_nil_r. auto. }
  assert (Hsame : forall f ev,
            (forall x, log_q (f x) = log_q x /\ logs (f x) = logs x /\ gen (f x) = gen x) ->
            puts k ev = [] ->
            exists j', jobs (with_job i f s) !! k = Some j' /\
              log_q j' = log_q j ++ puts k ev /\ logs j' = logs j /\ gen j' = gen j).
  { intros f ev Hf Hp. rewrite with_job_lookup, Hk, Hp, app_nil_r. simpl.
    destruct (Nat.eqb i k); [|exists j; auto].
    exists (f j). destruct (Hf j) as (? & ? & ?). auto. }
  destruct (thread j0) as [[|r evs] out | pending | | ].
  - destruct out as [f|ex]; [|destruct (is_Exception ex)]; injection Hs as <- <-;
      (split; [intros ? ? ? H; simpl in H;
               repeat (destruct H as [H|H]; try discriminate); destruct H
              |apply Hsame; [intros x; destruct x; auto|reflexivity]]).
  - pose proof (Logger_handle_lookup r s k) as Hl.
    pose proof (Logger_handle_puts r s k) as Hp.
    pose proof (fun i0 text files => Logger_handle_no_yield r s i0 text files) as Hy.
    destruct (Logger_handle r s) as [s1 e1]. cbn [fst snd] in *. injection Hs as <- <-.
    split; [exact Hy|]. rewrite with_job_lookup, Hl, Hk, Hp. simpl.
    destruct (Nat.eqb i k); eexists; (split; [reflexivity|]); simpl; auto.
  - injection Hs as <- <-.
    split; [intros ? ? ? H; destruct H as [H|[]]; discriminate|].
    rewrite with_job_lookup, Hk. simpl. destruct (Nat.eqb_spec i k) as [-> | Hne].
    + eexists. split; [reflexivity|]. simpl. auto.
    + exists j. split; [reflexivity|]. rewrite app_nil_r. auto.
  - injection Hs as <- <-. split; [intros ? ? ? []|]. exists j. rewrite app_nil_r. auto.
  - injection Hs as <- <-. split; [intros ? ? ? []|]. exists j. rewrite app_nil_r. auto.
Qed.

Lemma consumer_step_other i s s' e k :
  consumer_step module_file cwd i s = (s', e) -> k <> i ->
  jobs s' !! k = jobs s !! k.
Proof.
  intros Hs Hne. unfold consumer_step in Hs.
  assert (Hw : forall f, jobs (with_job i f s) !! k = jobs s !! k).
  { intros f. rewrite with_job_lookup. destruct (Nat.eqb_spec i k); [congruence|].
    destruct (jobs s !! k); reflexivity. }
  destruct (jobs s !! i) as [j|]; [|injection Hs as <- <-; reflexivity].
  destruct (gen j).
  - destruct (log_q j) as [|line q]; [|destruct (String.eqb line SEPARATION_DONE)];
      injection Hs as <- <-; apply Hw.
  - injection Hs as <- <-; apply Hw.
  - destruct (is_alive (thread j)); injection Hs as <- <-; apply Hw.
  - destruct (log_q j); injection Hs as <- <-; apply Hw.
  - destruct (log_q j) as [|line q]; [|destruct (String.eqb line SEPARATION_DONE)];
      injection Hs as <- <-; apply Hw.
  - injection Hs as <- <-. cbn [jobs]. apply list_lookup_alter_ne. congruence.
  - destruct (final_pair module_file cwd j). injection Hs as <- <-. apply Hw.
  - injection Hs as <- <-. reflexivity.
  - injection Hs as <- <-. reflexivity.
Qed.

Lemma flow_take (j : Job) (line : string) (q : list string) (g : gen_state) :
  log_q j = line :: q -> String.eqb line SEPARATION_DONE = false ->
  flow (set_gen g (set_logs (logs j ++ [line]) (set_log_q q j))) = flow j.
Proof.
  intros E El. unfold flow. simpl. rewrite E. simpl. rewrite El. simpl.
  rewrite <- app_assoc. reflexivity.
Qed.

Lemma flow_drop (j j' : Job) (q : list string) :
  log_q j = SEPARATION_DONE :: q -> logs j' = logs j -> log_q j' = q ->
  flow j' = flow j.
Proof. unfold flow. intros E -> ->. rewrite E. reflexivity. Qed.

(** A step of the generator of a job: the lines of the job are kept, the
    text of a pair it yields is that of its [logs], an empty queue stays
    empty, a reading generator with messages waiting comes nearer to the
    end of its queue, and a generator that reads no more takes nothing. *)
Lemma consumer_step_own i s s' e j :
  consumer_step module_file cwd i s = (s', e) -> jobs s !! i = Some j ->
  exists j', jobs s' !! i = Some j' /\
    flow j' = flow j /\
    logs j `prefix_of` logs j' /\
    (forall ev, In ev e ->
       exists text files, ev = EYield i text files /\
         (text = join newline (logs j') \/
          files = None /\
          exists err, text = join newline (logs j') +:+ newline +:+ "ERROR: " +:+ err)) /\
    (log_q j = [] -> log_q j' = [] /\ logs j' = logs j) /\
    (reading (gen j) = true -> log_q j <> [] ->
       reading (gen j') = true /\ drain_fuel j' < drain_fuel j) /\
    (reading (gen j) = false ->
       reading (gen j') = false /\ logs j' = logs j /\ log_q j' = log_q j).
Proof.
  intros Hs Hj. unfold consumer_step in Hs. rewrite Hj in Hs.
  assert (Hw : forall f, jobs (with_job i f s) !! i = Some (f j)).
  { intros f. rewrite with_job_lookup, Nat.eqb_refl, Hj. reflexivity. }
  destruct (gen j) eqn:Eg.
  - destruct (log_q j) as [|line q] eqn:Eq.
    + injection Hs as <- <-. eexists. split; [apply Hw|].
      unfold flow, drain_fuel. simpl. rewrite ?Eq, ?Eg.
      repeat split; try reflexivity; try congruence; intros ? [].
    + destruct (String.eqb line SEPARATION_DONE) eqn:El; injection Hs as <- <-.
      * apply String.eqb_eq in El. subst line.
        eexists. split; [apply Hw|]. split; [eapply flow_drop; [exact Eq|reflexivity|reflexivity]|].
        unfold drain_fuel. simpl. rewrite ?Eq, ?Eg.
        repeat split; try reflexivity; try congruence; try (intros ? []).
        destruct q; simpl; lia.
      * eexists. split; [apply Hw|]. split; [apply flow_take; assumption|].
        split; [exists [line]; reflexivity|]. unfold drain_fuel. simpl. rewrite ?Eq, ?Eg.
        repeat split; try reflexivity; try congruence.
        -- intros ev [<-|[]]. eexists _, _. split; [reflexivity|]. left. reflexivity.
        -- destruct q; simpl; lia.
  - injection Hs as <- <-. eexists. split; [apply Hw|].
    unfold flow, drain_fuel. simpl. rewrite ?Eq, ?Eg.
    repeat split; try reflexivity; try congruence; try (intros ? []).
    destruct (log_q j); [congruence|simpl; lia].
  - destruct (is_alive (thread j)); injection Hs as <- <-;
      (eexists; split; [apply Hw|];
       unfold flow, drain_fuel; simpl; rewrite ?Eg;
       repeat split; try reflexivity; try congruence; try (intros ? []);
       destruct (log_q j); [congruence|simpl; lia]).
  - destruct (log_q j) as [|line q] eqn:Eq; injection Hs as <- <-;
      (eexists; split; [apply Hw|];
       unfold flow, drain_fuel; simpl; rewrite ?Eq, ?Eg;
       repeat split; try reflexivity; try congruence; try (intros ? []);
       simpl; lia).
  - destruct (log_q j) as [|line q] eqn:Eq.
    + injection Hs as <- <-. eexists. split; [apply Hw|].
      unfold flow, drain_fuel. simpl. rewrite ?Eq, ?Eg.
      repeat split; try reflexivity; try congruence; intros ? [].
    + destruct (String.eqb line SEPARATION_DONE) eqn:El; injection Hs as <- <-.
      * apply String.eqb_eq in El. subst line.
        eexists. split; [apply Hw|]. split; [eapply flow_drop; [exact Eq|reflexivity|reflexivity]|].
        unfold drain_fuel. simpl. rewrite ?Eq, ?Eg.
        repeat split; try reflexivity; try congruence; try (intros ? []).
        destruct q; simpl; lia.
      * eexists. split; [apply Hw|].
        split; [unfold flow; simpl; rewrite ?Eq, ?Eg; simpl; rewrite El; simpl;
                rewrite <- app_assoc; reflexivity|].
        split; [exists [line]; reflexivity|]. unfold drain_fuel. simpl. rewrite ?Eq, ?Eg.
        repeat split; try reflexivity; try congruence; try (intros ? []).
        destruct q; simpl; lia.
  - injection Hs as <- <-. exists (set_gen GFinal j).
    split; [cbn [jobs]; rewrite list_lookup_alter_eq, Hj; reflexivity|].
    unfold flow. simpl.
    repeat split; try reflexivity; try congruence; try (intros ? []); auto.
  - destruct (final_pair module_file cwd j) as [text files] eqn:Ef. injection Hs as <- <-.
    eexists. split; [apply Hw|]. unfold flow. simpl.
    repeat split; try reflexivity; try congruence; auto.
    intros ev [<-|[]]. exists text, files. split; [reflexivity|].
    unfold final_pair in Ef. destruct (truthy (result_error j)); injection Ef as <- <-;
      [right; split; [reflexivity|eexists; reflexivity] | left; reflexivity].
  - injection Hs as <- <-. exists j. rewrite Eg.
    repeat split; try reflexivity; try congruence; try (intros ? []); auto;
      simpl in *; congruence.
  - injection Hs as <- <-. exists j. rewrite Eg.
    repeat split; try reflexivity; try congruence; try (intros ? []); auto;
      simpl in *; congruence.
Qed.

Lemma close_step_job i s s' e k j :
  close_step i s = (s', e) -> jobs s !! k = Some j ->
  e = [] /\
  exists j', jobs s' !! k = Some j' /\
    log_q j' = log_q j /\ logs j' = logs j /\
    (reading (gen j) = false -> gen j' = gen j).
Proof.
  intros Hs Hk. unfold close_step in Hs.
  destruct (jobs s !! i) as [j0|] eqn:Hj; [|injection Hs as <- <-; split; [reflexivity|eauto]].
  destruct (gen j0) eqn:Eg; injection Hs as <- <-; (split; [reflexivity|]); eauto.
  rewrite with_job_lookup, Hk. simpl. destruct (Nat.eqb_spec i k) as [-> | Hne]; [|eauto].
  eexists. split; [reflexivity|]. simpl.
  assert (j0 = j) by congruence. subst j0. rewrite Eg. repeat split. discriminate.
Qed.

(** Every step keeps the lines of every job, adding those put on its
    queue; [logs] only grows; and a pair yielded for a job shows the
    [logs] the job has after the step. *)
Lemma step_job a s s' e k j :
  step module_file cwd a s = (s', e) -> jobs s !! k = Some j ->
  exists j', jobs s' !! k = Some j' /\
    flow j' = flow j ++ waiting_lines (puts k e) /\
    logs j `prefix_of` logs j' /\
    (reading (gen j) = false -> reading (gen j') = false /\ logs j' = logs j) /\
    (forall text files, In (EYield k text files) e ->
       text = join newline (logs j') \/
       files = None /\
       exists err, text = join newline (logs j') +:+ newline +:+ "ERROR: " +:+ err).
Proof.
  intros Hs Hk. destruct a as [i|i|i]; simpl in Hs.
  - destruct (worker_step_job _ _ _ _ _ _ Hs Hk) as (Hy & j' & Hj' & Hq & Hl & Hg).
    exists j'. split; [exact Hj'|]. unfold flow. rewrite Hq, Hl, Hg, waiting_lines_app.
    split; [apply app_assoc|]. split; [exists []; rewrite app_nil_r; reflexivity|].
    split; [auto|]. intros text files H. destruct (Hy _ _ _ H).
  - assert (Hnp : puts k e = []).
    { unfold consumer_step in Hs. destruct (jobs s !! i) as [j0|]; [|injection Hs as <- <-; reflexivity].
      destruct (gen j0); try (injection Hs as <- <-; reflexivity).
      - destruct (log_q j0) as [|line q]; [|destruct (String.eqb line SEPARATION_DONE)];
          injection Hs as <- <-; reflexivity.
      - destruct (is_alive (thread j0)); injection Hs as <- <-; reflexivity.
      - destruct (log_q j0); injection Hs as <- <-; reflexivity.
      - destruct (log_q j0) as [|line q]; [|destruct (String.eqb line SEPARATION_DONE)];
          injection Hs as <- <-; reflexivity.
      - destruct (final_pair module_file cwd j0). injection Hs as <- <-. reflexivity. }
    rewrite Hnp. simpl. rewrite app_nil_r.
    destruct (Nat.eq_dec k i) as [-> | Hne].
    + destruct (consumer_step_own _ _ _ _ _ Hs Hk) as (j' & Hj' & Hf & Hp & Hy & _ & _ & Hn).
      exists j'. split; [exact Hj'|]. split; [exact Hf|]. split; [exact Hp|].
      split; [intros H; destruct (Hn H) as (? & ? & _); auto|].
      intros text files H. destruct (Hy _ H) as (t & f & E & Ht).
      injection E as <- <-. exact Ht.
    + exists j. rewrite (consumer_step_other _ _ _ _ _ Hs Hne).
      split; [exact Hk|]. split; [reflexivity|].
      split; [exists []; rewrite app_nil_r; reflexivity|]. split; [auto|].
      intros text files H. exfalso.
      unfold consumer_step in Hs. destruct (jobs s !! i) as [j0|] eqn:Hj0;
        [|injection Hs as <- <-; destruct H].
      destruct (consumer_step_own i s s' e j0) as (j' & _ & _ & _ & Hy & _).
      { unfold consumer_step. rewrite Hj0. exact Hs. }
      { exact Hj0. }
      destruct (Hy _ H) as (t & f & E & _). injection E as -> _ _. congruence.
  - destruct (close_step_job _ _ _ _ _ _ Hs Hk) as (-> & j' & Hj' & Hq & Hl & Hg).
    exists j'. split; [exact Hj'|]. unfold flow. rewrite Hq, Hl. simpl.
    split; [rewrite app_nil_r; reflexivity|].
    split; [exists []; rewrite app_nil_r; reflexivity|].
    split; [intros H; rewrite (Hg H); auto|]. intros ? ? [].
Qed.

Lemma flow_logs_clean (j j' : Job) (extra : list string) :
  flow j' = flow j ++ waiting_lines extra ->
  Forall (fun m => m <> SEPARATION_DONE) (logs j) ->
  Forall (fun m => m <> SEPARATION_DONE) (logs j').
Proof.
  unfold flow. intros E Hl.
  assert (H : Forall (fun m => m <> SEPARATION_DONE) (logs j' ++ waiting_lines (log_q j'))).
  { rewrite E. repeat (apply Forall_app; split); auto using waiting_lines_not_sentinel. }
  apply Forall_app in H. tauto.
Qed.

(** C8.  A line formatted by the handler is never the sentinel.  And from
    any state whose jobs hold no sentinel in [logs], whatever their queues
    contain, no schedule brings the sentinel into [logs]: at every moment
    the lines in the [logs] of a job followed by the messages other than
    the sentinel that wait in its queue are those it had at the start
    followed by the messages other than the sentinel put on its queue
    since (the polling loop and the draining loop move every other message
    from the queue to [logs] and drop the sentinel); and the text of every
    pair yielded for a job is the join of a prefix of the [logs] of that
    job, so of lines none of which is the sentinel, with at most the error
    line after them. *)
Theorem sentinel_never_a_log_line :
  (forall r m, format r = Some m -> m <> SEPARATION_DONE) /\
  (forall sched s s' tr,
     logs_clean s -> run module_file cwd sched s = (s', tr) ->
     logs_clean s' /\
     (forall k j, jobs s !! k = Some j ->
        exists j', jobs s' !! k = Some j' /\
          logs j' ++ waiting_lines (log_q j') =
          logs j ++ waiting_lines (log_q j ++ puts k tr)) /\
     (forall k text files, In (EYield k text files) tr ->
        exists j' l, jobs s' !! k = Some j' /\ l `prefix_of` logs j' /\
          Forall (fun m => m <> SEPARATION_DONE) l /\
          (text = join newline l \/
           files = None /\
           exists err, text = join newline l +:+ newline +:+ "ERROR: " +:+ err))).
Proof.
  split; [exact format_not_sentinel|].
  intros sched s s' tr Hc.
  apply (run_invariant module_file cwd
           (fun s' tr =>
              logs_clean s' /\
              (forall k j, jobs s !! k = Some j ->
                 exists j', jobs s' !! k = Some j' /\
                   logs j' ++ waiting_lines (log_q j') =
                   logs j ++ waiting_lines (log_q j ++ puts k tr)) /\
              (forall k text files, In (EYield k text files) tr ->
                 exists j' l, jobs s' !! k = Some j' /\ l `prefix_of` logs j' /\
                   Forall (fun m => m <> SEPARATION_DONE) l /\
                   (text = join newline l \/
                    files = None /\
                    exists err, text = join newline l +:+ newline +:+ "ERROR: " +:+ err)))).
  - split; [exact Hc|]. split; [|intros ? ? ? []].
    intros k j Hk. exists j. rewrite app_nil_r. auto.
  - intros a s1 tr1 s2 e (Hc1 & Hf1 & Hy1) Hs.
    assert (Hc2 : logs_clean s2).
    { destruct a as [i|i|i]; simpl in Hs;
        eauto using worker_step_clean, consumer_step_clean, close_step_clean. }
    split; [exact Hc2|]. split.
    + intros k j Hk. destruct (Hf1 k j Hk) as (j1 & Hj1 & E1).
      destruct (step_job _ _ _ _ _ _ Hs Hj1) as (j2 & Hj2 & E2 & _).
      exists j2. split; [exact Hj2|]. unfold flow in E2. rewrite E2, E1.
      rewrite puts_events_app, !waiting_lines_app, <- !app_assoc. reflexivity.
    + intros k text files Hin. apply in_app_or in Hin. destruct Hin as [Hin|Hin].
      * destruct (Hy1 _ _ _ Hin) as (j1 & l & Hj1 & Hp & Hl & Ht).
        destruct (step_job _ _ _ _ _ _ Hs Hj1) as (j2 & Hj2 & _ & Hp2 & _).
        exists j2, l. split; [exact Hj2|]. split; [|auto].
        etransitivity; eassumption.
      * assert (Hex : exists j1, jobs s1 !! k = Some j1).
        { destruct (jobs s1 !! k) as [j1|] eqn:Hj1; [eauto|]. exfalso.
          destruct a as [i|i|i]; simpl in Hs.
          - unfold worker_step in Hs. destruct (jobs s1 !! i) as [j0|] eqn:Hj0;
              [|injection Hs as <- <-; destruct Hin].
            destruct (worker_step_job i s1 s2 e i j0) as (Hy & _).
            { unfold worker_step. rewrite Hj0. exact Hs. }
            { exact Hj0. }
            exact (Hy _ _ _ Hin).
          - unfold consumer_step in Hs. destruct (jobs s1 !! i) as [j0|] eqn:Hj0;
              [|injection Hs as <- <-; destruct Hin].
            destruct (consumer_step_own i s1 s2 e j0) as (j' & _ & _ & _ & Hy & _).
            { unfold consumer_step. rewrite Hj0. exact Hs. }
            { exact Hj0. }
            destruct (Hy _ Hin) as (t & f & E & _). injection E as -> _ _. congruence.
          - unfold close_step in Hs. destruct (jobs s1 !! i) as [j0|];
              [|injection Hs as <- <-; destruct Hin].
            destruct (gen j0); injection Hs as <- <-; destruct Hin. }
        destruct Hex as (j1 & Hj1).
        destruct (step_job _ _ _ _ _ _ Hs Hj1) as (j2 & Hj2 & _ & _ & _ & Hy).
        exists j2, (logs j2). split; [exact Hj2|]. split; [reflexivity|].
        split; [exact (logs_clean_lookup _ _ _ Hc2 Hj2)|]. exact (Hy _ _ Hin).
Qed.

(** ** Emptying the queue *)




End Claims.

(** * The properties at concrete inputs *)

Lemma ex_job_started (b : behaviour) :
  start ex_is_file "in.wav" b empty_system = (ex_job b, inr 0).
Proof. unfold ex_job. vm_compute. reflexivity. Qed.

Lemma ex_run_pair (sched : list action) (b : behaviour) :
  run ex_module_file ex_cwd sched (ex_job b) = (fst (ex_run sched b), snd (ex_run sched b)).
Proof. unfold ex_run. apply surjective_pairing. Qed.

Lemma final_pair_on_failure_absent_witness :
  start ex_is_file "in.wav" ex_disk_full empty_system = (ex_job ex_disk_full, inr 0) /\
  yields 0 (snd (ex_run ex_schedule ex_disk_full)) =
    [("12:00:01 - INFO - loading model", None);
     ("12:00:01 - INFO - loading model" +:+ newline +:+ "ERROR: disk full", None)].
Proof.
  assert (Hj : jobs (fst (ex_run ex_schedule ex_disk_full)) !! 0 =
               Some (mkJob (parse_path "in.wav") [] None (Some "disk full") TDone GDone
                       ["12:00:01 - INFO - loading model"]))
    by (vm_compute; reflexivity).
  split; [apply ex_job_started|].
  destruct (final_pair_on_failure_absent ex_module_file ex_cwd ex_is_file
              "in.wav" ex_disk_full (ex_job ex_disk_full) ex_schedule
              (fst (ex_run ex_schedule ex_disk_full))
              (snd (ex_run ex_schedule ex_disk_full)) _
              (ex_job_started _) (ex_run_pair _ _) Hj) as (_ & _ & H).
  destruct (H eq_refl) as (final & _ & _ & _ & _ & Hc).
  apply (Hc ex_record); vm_compute; reflexivity.
Defined.

(** C1 as stated fails: after one line and ["disk full"], the final pair
    of the finished job carries [None], not the empty list. *)
Lemma failing_job_final_artifacts_not_empty_list :
  gen <$> jobs (fst (ex_run ex_schedule ex_disk_full)) !! 0 = Some GDone /\
  last (yields 0 (snd (ex_run ex_schedule ex_disk_full))) =
    Some ("12:00:01 - INFO - loading model" +:+ newline +:+ "ERROR: disk full", None) /\
  snd <$> last (yields 0 (snd (ex_run ex_schedule ex_disk_full))) <> Some (Some []).
Proof.
  split; [vm_compute; reflexivity|]. split; [vm_compute; reflexivity|].
  vm_compute. discriminate.
Qed.





Lemma artifact_paths_of_success_witness :
  start ex_is_file "in.wav" ex_success empty_system = (ex_job ex_success, inr 0) /\
  exists paths,
    last (yields 0 (snd (ex_run ex_schedule ex_success))) =
      Some (join newline (relay_lines [ex_record]), Some paths) /\
    length paths = 1 /\
    paths !! 0 = Some "/app/output/a.wav" /\
    rooted_under (BASE_OUTPUT_DIR ex_module_file ex_cwd)
      (absolute ex_cwd (truediv (BASE_OUTPUT_DIR ex_module_file ex_cwd) "a.wav")).
Proof.
  assert (Hj : jobs (fst (ex_run ex_schedule ex_success)) !! 0 =
               Some (mkJob (parse_path "in.wav") [] (Some ["a.wav"]) None TDone GDone
                       ["12:00:01 - INFO - loading model"]))
    by (vm_compute; reflexivity).
  split; [apply ex_job_started|].
  destruct (artifact_paths_of_success ex_module_file ex_cwd ex_is_file
              "in.wav" [ex_record] ["a.wav"] (ex_job ex_success) ex_schedule
              (fst (ex_run ex_schedule ex_success))
              (snd (ex_run ex_schedule ex_success)) _
              (ex_job_started _) (ex_run_pair _ _) Hj eq_refl) as (paths & Hl & Hn & Hk).
  exists paths. split; [exact Hl|]. split; [exact Hn|].
  destruct (Hk 0 "a.wav" eq_refl) as (Hp & _ & _ & Hu).
  split.
  - rewrite Hp. vm_compute. reflexivity.
  - destruct (Hu eq_refl) as [_ Hr]. apply Hr.
    vm_compute. intros [H|[]]. discriminate H.
Defined.

(** C4 as stated fails, in two ways.  A name that begins with a slash
    replaces the output directory; and a relative name with [".."]
    components is joined as it is and names a place outside the output
    directory.  In both cases the path yielded is not under it. *)
Lemma absolute_name_leaves_output_dir :
  last (yields 0 (snd (ex_run ex_schedule_silent ex_absolute_name))) =
    Some ("", Some ["/tmp/b.wav"]) /\
  path_str (BASE_OUTPUT_DIR ex_module_file ex_cwd) = "/app/output" /\
  ~ rooted_under (BASE_OUTPUT_DIR ex_module_file ex_cwd)
      (absolute ex_cwd (truediv (BASE_OUTPUT_DIR ex_module_file ex_cwd) "/tmp/b.wav")) /\
  last (yields 0 (snd (ex_run ex_schedule_silent ex_dotdot_name))) =
    Some ("", Some ["/app/output/../../etc/passwd"]) /\
  resolved (absolute ex_cwd
              (truediv (BASE_OUTPUT_DIR ex_module_file ex_cwd) "../../etc/passwd"))
    = ["etc"; "passwd"] /\
  ~ rooted_under (BASE_OUTPUT_DIR ex_module_file ex_cwd)
      (absolute ex_cwd (truediv (BASE_OUTPUT_DIR ex_module_file ex_cwd) "../../etc/passwd")).
Proof.
  split; [vm_compute; reflexivity|]. split; [vm_compute; reflexivity|].
  split; [intros [_ [rest H]]; vm_compute in H; discriminate H|].
  split; [vm_compute; reflexivity|]. split; [vm_compute; reflexivity|].
  intros [_ [rest H]]. vm_compute in H. discriminate H.
Qed.



Lemma close_leaves_handler_attached_witness :
  start ex_is_file "in.wav" ex_disk_full empty_system = (ex_job ex_disk_full, inr 0) /\
  gen (mkJob (parse_path "in.wav") [] None None
         (TRunning [] (Raises (mkExc true "disk full"))) GClosed
         ["12:00:01 - INFO - loading model"]) = GClosed /\
  handlers (fst (run ex_module_file ex_cwd [Worker 0; Worker 0; Consumer 0]
                   (fst (ex_run ex_schedule_close ex_disk_full)))) = [0].
Proof.
  assert (Hj : jobs (fst (ex_run ex_schedule_close ex_disk_full)) !! 0 =
               Some (mkJob (parse_path "in.wav") [] None None
                       (TRunning [] (Raises (mkExc true "disk full"))) GClosed
                       ["12:00:01 - INFO - loading model"]))
    by (vm_compute; reflexivity).
  split; [apply ex_job_started|]. split; [reflexivity|].
  apply (close_leaves_handler_attached ex_module_file ex_cwd ex_is_file
           "in.wav" ex_disk_full (ex_job ex_disk_full) ex_schedule_close
           (fst (ex_run ex_schedule_close ex_disk_full))
           (snd (ex_run ex_schedule_close ex_disk_full)) _
           [Worker 0; Worker 0; Consumer 0] _
           (snd (run ex_module_file ex_cwd [Worker 0; Worker 0; Consumer 0]
                   (fst (ex_run ex_schedule_close ex_disk_full))))
           (ex_job_started _) (ex_run_pair _ _) Hj eq_refl).
  apply surjective_pairing.
Defined.

Lemma polling_loop_terminates_witness :
  start ex_is_file "in.wav" ex_silent empty_system = (ex_job ex_silent, inr 0) /\
  (exists s' tr' j',
     run ex_module_file ex_cwd (repeat (Consumer 0) 3)
       (fst (ex_run [Worker 0; Worker 0] ex_silent)) = (s', tr') /\
     jobs s' !! 0 = Some j' /\
     (gen j' = GDrain \/ gen j' = GDetach \/ gen j' = GFinal \/ gen j' = GDone)) /\
  (exists s' tr' j',
     run ex_module_file ex_cwd
       ([Worker 0; Worker 0] ++ repeat (Worker 0) 2 ++ repeat (Consumer 0) 6)
       (ex_job ex_silent) = (s', tr') /\
     jobs s' !! 0 = Some j' /\ gen j' = GDone /\ length (yields 0 tr') = 1).
Proof.
  assert (Hj : jobs (fst (ex_run [Worker 0; Worker 0] ex_silent)) !! 0 =
               Some (mkJob (parse_path "in.wav") [SEPARATION_DONE] (Some ["a.wav"]) None
                       TDone GPoll []))
    by (vm_compute; reflexivity).
  split; [apply ex_job_started|].
  destruct (polling_loop_terminates ex_module_file ex_cwd ex_is_file
              "in.wav" ex_silent (ex_job ex_silent) [Worker 0; Worker 0]
              (fst (ex_run [Worker 0; Worker 0] ex_silent))
              (snd (ex_run [Worker 0; Worker 0] ex_silent)) _
              (ex_job_started _) (ex_run_pair _ _) Hj) as (H1 & _ & H3).
  split.
  - destruct (H1 eq_refl ltac:(discriminate)) as (_ & H). exact H.
  - apply (H3 (Some ["a.wav"]) eq_refl). discriminate.
Defined.

Lemma sentinel_never_a_log_line_witness :
  logs_clean ex_draining /\
  logs_clean (fst (run ex_module_file ex_cwd (repeat (Consumer 0) 6) ex_draining)) /\
  logs <$> jobs (fst (run ex_module_file ex_cwd (repeat (Consumer 0) 6) ex_draining)) !! 0
    = Some ["first line"; "late line"].
Proof.
  assert (Hc : logs_clean ex_draining).
  { repeat constructor. discriminate. }
  split; [exact Hc|]. split; [|vm_compute; reflexivity].
  assert (Hr : run ex_module_file ex_cwd (repeat (Consumer 0) 6) ex_draining =
               (fst (run ex_module_file ex_cwd (repeat (Consumer 0) 6) ex_draining),
                snd (run ex_module_file ex_cwd (repeat (Consumer 0) 6) ex_draining)))
    by apply surjective_pairing.
  destruct sentinel_never_a_log_line with (module_file := ex_module_file) (cwd := ex_cwd)
    as (_ & H).
  exact (proj1 (H (repeat (Consumer 0) 6) ex_draining
                  (fst (run ex_module_file ex_cwd (repeat (Consumer 0) 6) ex_draining))
                  (snd (run ex_module_file ex_cwd (repeat (Consumer 0) 6) ex_draining))
                  Hc Hr)).
Defined.

Lemma missing_input_starts_nothing_witness :
  ex_is_file (path_str (parse_path "nope.wav")) = false /\
  start ex_is_file "nope.wav" ex_silent (ex_job ex_disk_full) =
    (ex_job ex_disk_full, inl (FileNotFoundError "Uploaded file not found: nope.wav")).
Proof.
  assert (H : ex_is_file (path_str (parse_path "nope.wav")) = false)
    by (vm_compute; reflexivity).
  split; [exact H|].
  apply (missing_input_starts_nothing ex_is_file "nope.wav" ex_silent (ex_job ex_disk_full) H).
Defined.

Lemma falsy_result_is_empty_success_witness :
  start ex_is_file "in.wav" ex_none empty_system = (ex_job ex_none, inr 0) /\
  last (yields 0 (snd (ex_run ex_schedule_silent ex_none))) =
    Some (join newline (relay_lines []), Some []).
Proof.
  assert (Hj : jobs (fst (ex_run ex_schedule_silent ex_none)) !! 0 =
               Some (mkJob (parse_path "in.wav") [] None None TDone GDone []))
    by (vm_compute; reflexivity).
  split; [apply ex_job_started|].
  apply (falsy_result_is_empty_success ex_module_file ex_cwd ex_is_file
           "in.wav" [] None (ex_job ex_none) ex_schedule_silent
           (fst (ex_run ex_schedule_silent ex_none))
           (snd (ex_run ex_schedule_silent ex_none)) _
           (ex_job_started _) (or_introl eq_refl) (ex_run_pair _ _) Hj eq_refl).
Defined.

(** * Further properties of the job runner *)

Lemma relay_lines_cons (r : LogRecord) (evs : list LogRecord) :
  relay_lines (r :: evs) =
  match relay r with
  | Some m => m :: relay_lines evs
  | None => relay_lines evs
  end.
Proof. reflexivity. Qed.

Lemma relay_lines_relayed (evs : list LogRecord) :
  relay_lines (List.filter relayed evs) = relay_lines evs.
Proof.
  induction evs as [|r evs IH]; [reflexivity|].
  cbn [List.filter]. unfold relayed at 1. rewrite (relay_lines_cons r evs).
  destruct (relay r) as [m|] eqn:E; [|exact IH].
  rewrite relay_lines_cons, E, IH. reflexivity.
Qed.

Section JobFacts.

Variable module_file : string.
Variable cwd : list string.
Variable is_file : string -> bool.

(** Emission order.  At every moment of a run, the lines already in
    [logs], followed by the lines still waiting in the queue, are the lines
    relayed for the records logged so far, in the order in which the
    Processor logged them; once the generator has left the polling loop
    [logs] holds all of them. *)
Theorem logs_follow_emission_order audio b s0 sched s tr j :
  start is_file audio b empty_system = (s0, inr 0) ->
  run module_file cwd sched s0 = (s, tr) -> jobs s !! 0 = Some j ->
  (exists done rest,
     fst b = done ++ rest /\
     logs j ++ waiting_lines (log_q j) = relay_lines done /\
     (is_alive (thread j) = false -> rest = [])) /\
  (gen j = GDrain \/ gen j = GDetach \/ gen j = GFinal \/ gen j = GDone ->
     logs j = relay_lines (fst b) /\ log_q j = []).
Proof.
  intros Hs Hr Hj. apply start_first in Hs. destruct Hs as [-> _].
  destruct (single_at _ _ _ _ _ _ _ _ Hr Hj) as (_ & _ & hist & Hw & Hc).
  split.
  - assert (Hh : logs j ++ waiting_lines (log_q j) = waiting_lines hist).
    { destruct Hc as [g lg q Hg Hl | lg q Hl E | g Hg | g Hg].
      - rewrite waiting_lines_app, (waiting_lines_clean lg Hl). reflexivity.
      - rewrite waiting_lines_app, (waiting_lines_clean lg Hl). reflexivity.
      - rewrite waiting_lines_app.
        rewrite (waiting_lines_clean _ (relay_lines_not_sentinel _)). reflexivity.
      - rewrite waiting_lines_app.
        rewrite (waiting_lines_clean _ (relay_lines_not_sentinel _)). reflexivity. }
    rewrite Hh. destruct Hw as [done evs E | | t ->].
    + exists done, evs. split; [exact E|]. split; [|discriminate].
      apply waiting_lines_clean, relay_lines_not_sentinel.
    + exists (fst b), []. split; [symmetry; apply app_nil_r|]. split; [|reflexivity].
      apply waiting_lines_clean, relay_lines_not_sentinel.
    + exists (fst b), []. split; [symmetry; apply app_nil_r|]. split; [|reflexivity].
      rewrite waiting_lines_app.
      rewrite (waiting_lines_clean _ (relay_lines_not_sentinel _)). apply app_nil_r.
  - intros Hg. destruct (left_polling_dead _ _ _ _ _ _ _ _ _ _ Hc Hw Hg) as (_ & Hl & Hq).
    auto.
Qed.

(** Records that do not count.  A record below the level of the logger,
    or whose message cannot be built, leaves no mark: a finished job has
    yielded the same pairs as a finished job whose Processor logs only the
    other records, whatever the two schedules. *)
Theorem dropped_records_leave_no_mark audio evs out s0 s0' sched sched' s s' tr tr' j j' :
  start is_file audio (evs, out) empty_system = (s0, inr 0) ->
  start is_file audio (List.filter relayed evs, out) empty_system = (s0', inr 0) ->
  run module_file cwd sched s0 = (s, tr) -> jobs s !! 0 = Some j -> gen j = GDone ->
  run module_file cwd sched' s0' = (s', tr') -> jobs s' !! 0 = Some j' -> gen j' = GDone ->
  yields 0 tr = yields 0 tr'.
Proof.
  intros Hs Hs' Hr Hj Hg Hr' Hj' Hg'.
  apply start_first in Hs. destruct Hs as [-> _].
  apply start_first in Hs'. destruct Hs' as [-> _].
  destruct (single_finished _ _ _ _ _ _ _ _ Hr Hj Hg) as (Hy & _).
  destruct (single_finished _ _ _ _ _ _ _ _ Hr' Hj' Hg') as (Hy' & _).
  rewrite Hy, Hy'. unfold expected_final, final_pair, finished_job. simpl.
  rewrite relay_lines_relayed. reflexivity.
Qed.

(** Failures that look like success.  The test of line 120 is the truth
    value of [result["error"]]: when the exception is not an [Exception]
    (nothing was recorded) or its message is empty, the final pair of the
    finished job has no error line and carries the empty list, like a
    success without artifacts. *)
Theorem unrecorded_failure_looks_like_success audio evs e s0 sched s tr j :
  start is_file audio (evs, Raises e) empty_system = (s0, inr 0) ->
  is_Exception e = false \/ exc_str e = "" ->
  run module_file cwd sched s0 = (s, tr) -> jobs s !! 0 = Some j -> gen j = GDone ->
  last (yields 0 tr) = Some (join newline (relay_lines evs), Some []).
Proof.
  intros Hs He Hr Hj Hg. apply start_first in Hs. destruct Hs as [-> _].
  destruct (single_finished _ _ _ _ _ _ _ _ Hr Hj Hg) as (Hy & _).
  rewrite Hy, last_snoc. f_equal.
  unfold expected_final, final_pair, finished_job. simpl.
  destruct He as [-> | He]; [reflexivity|].
  destruct (is_Exception e); [|reflexivity]. rewrite He. reflexivity.
Qed.

(** The handler of a job is on the logger from the start of the job until
    line 116 has run, and not after: it is detached before the final pair
    is yielded. *)
Theorem handler_attached_until_detach audio b s0 sched s tr j :
  start is_file audio b empty_system = (s0, inr 0) ->
  run module_file cwd sched s0 = (s, tr) -> jobs s !! 0 = Some j ->
  handlers s = (match gen j with GFinal | GDone => [] | _ => [0] end).
Proof.
  intros Hs Hr Hj. apply start_first in Hs. destruct Hs as [-> _].
  destruct (single_at _ _ _ _ _ _ _ _ Hr Hj) as (_ & _ & hist & _ & Hc).
  destruct Hc as [g lg q Hg Hl | lg q Hl E | g Hg | g Hg].
  - destruct Hg as [-> | [-> | [-> | ->]]]; reflexivity.
  - reflexivity.
  - destruct Hg as [-> | ->]; reflexivity.
  - destruct Hg as [-> | ->]; reflexivity.
Qed.

(** The outcome slot.  [result["files"]] and [result["error"]] are never
    both set, [result] is written at most once, and a write is never
    followed by another event of the thread than the sentinel. *)
Theorem outcome_written_at_most_once audio b s0 sched s tr j :
  start is_file audio b empty_system = (s0, inr 0) ->
  run module_file cwd sched s0 = (s, tr) -> jobs s !! 0 = Some j ->
  (result_files j = None \/ result_error j = None) /\
  length (List.filter is_store_event (outcome_events 0 tr)) <= 1 /\
  (outcome_events 0 tr = [] \/ outcome_events 0 tr = stores (snd b) \/
   outcome_events 0 tr = stores (snd b) ++ [EPut 0 SEPARATION_DONE]).
Proof.
  intros Hs Hr Hj. apply start_first in Hs. destruct Hs as [-> _].
  destruct (single_at _ _ _ _ _ _ _ _ Hr Hj) as (_ & _ & hist & Hw & _).
  assert (Hx : recorded_files (snd b) = None \/ recorded_error (snd b) = None).
  { destruct (snd b) as [f|e]; simpl; auto. }
  assert (Hn : length (List.filter is_store_event (stores (snd b))) <= 1).
  { destruct (snd b) as [f|e]; simpl; [lia|]. destruct (is_Exception e); simpl; lia. }
  destruct Hw as [done evs E | | t ->].
  - split; [auto|]. split; [simpl; lia|auto].
  - split; [exact Hx|]. split; [exact Hn|auto].
  - split; [exact Hx|]. split; [|auto].
    rewrite List.filter_app, length_app. simpl. lia.
Qed.

(** The two guards of the loops.  For a job alone on the logger, the test
    of line 99 never succeeds (when the thread is found dead the sentinel is
    already in the queue), and the draining loop of line 110 never finds a
    message (the sentinel was the last one). *)
Theorem liveness_break_never_taken audio b s0 sched s tr j :
  start is_file audio b empty_system = (s0, inr 0) ->
  run module_file cwd sched s0 = (s, tr) -> jobs s !! 0 = Some j ->
  (gen j = GEmpty -> log_q j <> [] /\ last (log_q j) = Some SEPARATION_DONE) /\
  (gen j = GDrain -> log_q j = []).
Proof.
  intros Hs Hr Hj. apply start_first in Hs. destruct Hs as [-> _].
  destruct (single_at _ _ _ _ _ _ _ _ Hr Hj) as (_ & _ & hist & Hw & Hc).
  split.
  - intros Hg. rewrite Hg in Hc.
    inversion Hc as [g lg q Hx | lg q Hl E El Eq Eh Ehs | g Hx | g Hx]; subst.
    + destruct Hx as [? | [? | [? | ?]]]; discriminate.
    + destruct (log_q j) as [|x q'] using rev_ind.
      * exfalso. rewrite app_nil_r in E. exact (sentinel_not_taken _ _ E Hl).
      * split; [intros Hnil; apply app_eq_nil in Hnil; destruct Hnil; discriminate|].
        rewrite app_assoc in E. apply app_inj_tail in E. destruct E as [_ ->].
        apply last_snoc.
    + destruct Hx; discriminate.
    + destruct Hx; discriminate.
  - intros Hg. eapply left_polling_dead; eauto.
Qed.

(** No cancellation.  Closing the generator does not stop the thread:
    given its steps it still runs [separate] to its end, writes [result]
    and puts the sentinel on a queue nobody reads any more. *)
Theorem closed_generator_thread_completes audio b s0 sched s tr j :
  start is_file audio b empty_system = (s0, inr 0) ->
  run module_file cwd sched s0 = (s, tr) -> jobs s !! 0 = Some j -> gen j = GClosed ->
  exists s' tr' j',
    run module_file cwd (repeat (Worker 0) (length (fst b) + 2)) s = (s', tr') /\
    jobs s' !! 0 = Some j' /\ gen j' = GClosed /\ is_alive (thread j') = false /\
    result_files j' = recorded_files (snd b) /\ result_error j' = recorded_error (snd b) /\
    last (log_q j') = Some SEPARATION_DONE /\ handlers s' = [0].
Proof.
  intros Hs Hr Hj Hg. apply start_first in Hs. destruct Hs as [-> _].
  destruct (single_at _ _ _ _ _ _ _ _ Hr Hj) as (Hinv & Hj1 & hist & Hw & Hc).
  assert (Hf : worker_fuel (thread j) <= length (fst b) + 2)
    by (eapply worker_fuel_bound; eassumption).
  destruct (run_workers module_file cwd _ b _ _ _ _ Hinv Hj1 Hf)
    as (s1 & e1 & j1 & Hr1 & Hinv1 & Hj1' & Hg1 & Ha1).
  exists s1, e1, j1. split; [exact Hr1|]. split; [rewrite Hj1'; reflexivity|].
  split; [congruence|]. split; [exact Ha1|].
  destruct Hinv1 as (j0 & hist1 & Hj0 & _ & Hw1 & Hc1 & _). rewrite Hj1' in Hj0.
  injection Hj0 as <-.
  destruct (worker_at_dead _ _ _ _ _ _ Hw1 Ha1) as (-> & Hrf & Hre).
  split; [exact Hrf|]. split; [exact Hre|].
  rewrite Hg1, Hg in Hc1.
  inversion Hc1 as [g lg q Hx Hl Eg El Eq Eh Ehs | | g Hx | g Hx]; subst;
    try (destruct Hx; discriminate).
  split; [|reflexivity].
  destruct (log_q j1) as [|x q'] using rev_ind.
  - exfalso. rewrite app_nil_r in Eh. exact (sentinel_not_taken _ _ Eh Hl).
  - rewrite app_assoc in Eh. apply app_inj_tail in Eh. destruct Eh as [_ ->].
    apply last_snoc.
Qed.

End JobFacts.

(** ** The sentinel and the handler list, for any number of jobs *)

Lemma callHandlers_puts_formatted (r : LogRecord) (hs : list nat) : forall js k m,
  In (EPut k m) (snd (callHandlers r hs js)) -> format r = Some m /\ In k hs.
Proof.
  induction hs as [|h hs IH]; intros js k m Hin; [destruct Hin|].
  cbn [callHandlers] in Hin. unfold QueueHandler_emit in Hin.
  destruct (Nat.leb DEBUG (levelno r)); [destruct (format r) as [msg|] eqn:Ef|];
    match type of Hin with
    | context [callHandlers r hs ?x] =>
        specialize (IH x k m); destruct (callHandlers r hs x) as [js2 e2]
    end; cbn [snd] in *.
  - destruct Hin as [Hin | Hin].
    + injection Hin as <- <-. split; [reflexivity|left; reflexivity].
    + destruct (IH Hin) as [E Hk]. split; [exact E|right; exact Hk].
  - destruct (IH Hin) as [E Hk]. split; [exact E|right; exact Hk].
  - destruct (IH Hin) as [E Hk]. split; [exact E|right; exact Hk].
Qed.

Lemma Logger_handle_puts_formatted (r : LogRecord) (s : System) (k : nat) (m : string) :
  In (EPut k m) (snd (Logger_handle r s)) -> format r = Some m /\ In k (handlers s).
Proof.
  unfold Logger_handle. destruct (Nat.leb INFO (levelno r)); [|intros []].
  pose proof (callHandlers_puts_formatted r (handlers s) (jobs s) k m) as H.
  destruct (callHandlers r (handlers s) (jobs s)). exact H.
Qed.

Section Ownership.

Variable module_file : string.
Variable cwd : list string.

(** The sentinel of a job is put on that job's queue only, and only by the
    [finally] clause of that job's own thread: no step of another job, and
    no record however it is formatted, ends the polling of a job. *)
Theorem sentinel_put_only_by_own_thread a s s' e k :
  step module_file cwd a s = (s', e) -> In (EPut k SEPARATION_DONE) e ->
  a = Worker k /\
  exists j pending, jobs s !! k = Some j /\ thread j = TFinally pending.
Proof.
  intros Hs Hin. destruct a as [i|i|i]; simpl in Hs.
  - unfold worker_step in Hs.
    destruct (jobs s !! i) as [j|] eqn:Hj; [|injection Hs as <- <-; destruct Hin].
    destruct (thread j) as [[|r evs] out | pending | | ] eqn:Ht.
    + destruct out as [f|ex]; [|destruct (is_Exception ex)]; injection Hs as <- <-;
        simpl in Hin; repeat (destruct Hin as [Hin|Hin]; try discriminate); destruct Hin.
    + pose proof (Logger_handle_puts_formatted r s k SEPARATION_DONE) as Hf.
      destruct (Logger_handle r s) as [s1 e1]. injection Hs as <- <-.
      destruct (Hf Hin) as [Hf' _]. exfalso.
      exact (format_not_sentinel _ _ Hf' eq_refl).
    + injection Hs as <- <-. destruct Hin as [Hin|[]]. injection Hin as <-.
      split; [reflexivity|]. exists j, pending. auto.
    + injection Hs as <- <-. destruct Hin.
    + injection Hs as <- <-. destruct Hin.
  - exfalso. unfold consumer_step in Hs.
    destruct (jobs s !! i) as [j|]; [|injection Hs as <- <-; destruct Hin].
    destruct (gen j); try (injection Hs as <- <-; destruct Hin; fail).
    + destruct (log_q j) as [|line q]; [injection Hs as <- <-; destruct Hin|].
      destruct (String.eqb line SEPARATION_DONE); injection Hs as <- <-;
        [destruct Hin|destruct Hin as [Hin|[]]; discriminate].
    + destruct (is_alive (thread j)); injection Hs as <- <-; destruct Hin.
    + destruct (log_q j); injection Hs as <- <-; destruct Hin.
    + destruct (log_q j) as [|line q]; [injection Hs as <- <-; destruct Hin|].
      destruct (String.eqb line SEPARATION_DONE); injection Hs as <- <-; destruct Hin.
    + destruct (final_pair module_file cwd j). injection Hs as <- <-.
      destruct Hin as [Hin|[]]; discriminate.
  - exfalso. unfold close_step in Hs.
    destruct (jobs s !! i) as [j|]; [|injection Hs as <- <-; destruct Hin].
    destruct (gen j); injection Hs as <- <-; destruct Hin.
Qed.

End Ownership.

Lemma removeHandler_other (i k : nat) (hs : list nat) :
  k <> i -> (In k (removeHandler i hs) <-> In k hs).
Proof.
  intros Hne. induction hs as [|x hs IH]; [reflexivity|].
  simpl. destruct (Nat.eqb_spec x i) as [-> | Hx].
  - split; [intros H; right; exact H|]. intros [H|H]; [congruence|exact H].
  - simpl. rewrite IH. reflexivity.
Qed.

Lemma removeHandler_absent (i : nat) (hs : list nat) :
  ~ In i hs -> removeHandler i hs = hs.
Proof.
  induction hs as [|x hs IH]; [reflexivity|]. intros Hn. simpl.
  destruct (Nat.eqb_spec x i) as [-> | Hx].
  - exfalso. apply Hn. left. reflexivity.
  - rewrite IH; [reflexivity|]. intros H. apply Hn. right. exact H.
Qed.

Lemma removeHandler_snoc (i : nat) (hs : list nat) :
  ~ In i hs -> removeHandler i (hs ++ [i]) = hs.
Proof.
  induction hs as [|x hs IH]; intros Hn; simpl.
  - rewrite Nat.eqb_refl. reflexivity.
  - destruct (Nat.eqb_spec x i) as [-> | Hx].
    + exfalso. apply Hn. left. reflexivity.
    + rewrite IH; [reflexivity|]. intros H. apply Hn. right. exact H.
Qed.

(** Attaching and detaching.  Attaching the handler of a job that is not
    yet on the logger and detaching it again restores the list of
    handlers; attaching it twice adds it once; and detaching the handler of
    one job leaves the handler of every other job where it was. *)
Theorem attach_detach_handlers (i : nat) (hs : list nat) :
  ~ In i hs ->
  removeHandler i (addHandler i hs) = hs /\
  addHandler i (addHandler i hs) = addHandler i hs /\
  (forall k, k <> i -> (In k (removeHandler i (addHandler i hs)) <-> In k hs)) /\
  (forall k hs', k <> i -> (In k (removeHandler i hs') <-> In k hs')).
Proof.
  intros Hn. assert (Ea : addHandler i hs = hs ++ [i]).
  { unfold addHandler. rewrite bool_decide_eq_false_2; [reflexivity|].
    rewrite list_elem_of_In. exact Hn. }
  split; [rewrite Ea; apply removeHandler_snoc; exact Hn|]. split; [|split].
  - rewrite Ea. unfold addHandler. rewrite bool_decide_eq_true_2; [reflexivity|].
    rewrite list_elem_of_In. apply in_or_app. right. left. reflexivity.
  - intros k Hk. rewrite Ea, removeHandler_snoc by exact Hn. reflexivity.
  - intros k hs' Hk. apply removeHandler_other. exact Hk.
Qed.

Lemma attach_detach_handlers_witness :
  ~ In 1 [0] /\ removeHandler 1 (addHandler 1 [0]) = [0].
Proof.
  assert (H : ~ In 1 [0]) by (intros [H|[]]; discriminate).
  split; [exact H|]. apply (attach_detach_handlers 1 [0] H).
Defined.

(** ** Names of artifacts *)

Lemma split_on_plain (c : ascii) (s : string) :
  has_char c s = false -> split_on c s = [s].
Proof.
  induction s as [|x s IH]; [reflexivity|]. simpl.
  destruct (Ascii.eqb x c); [discriminate|]. simpl. intros H.
  rewrite (IH H). reflexivity.
Qed.

Lemma has_char_startswith (s : string) :
  has_char "/" s = false -> startswith s "/" = false.
Proof. destruct s as [|x s]; [reflexivity|]. simpl. destruct (Ascii.eqb x "/"); [discriminate|reflexivity]. Qed.

Lemma splitroot_relative (s : string) :
  startswith s "/" = false -> splitroot s = ("", s).
Proof.
  destruct s as [|x s]; [reflexivity|]. simpl.
  destruct (Ascii.eqb_spec x "/") as [-> | Hx]; [discriminate|]. intros _.
  unfold splitroot. destruct x as [[] [] [] [] [] [] [] []]; try reflexivity. congruence.
Qed.

(** The components of a name without a slash: the name itself, unless it
    is empty or a dot. *)
Lemma parse_path_plain (fname : string) :
  has_char "/" fname = false ->
  parse_path fname = mkPath "" (if is_component fname then [fname] else []).
Proof.
  intros H. unfold parse_path.
  rewrite (splitroot_relative fname (has_char_startswith fname H)).
  rewrite (split_on_plain "/" fname H). cbn [filter list_filter].
  destruct (is_component fname) eqn:E.
  - rewrite decide_True by reflexivity. reflexivity.
  - rewrite decide_False by discriminate. reflexivity.
Qed.

Lemma join_snoc (sep x : string) (l : list string) :
  l <> [] -> join sep (l ++ [x]) = join sep l +:+ sep +:+ x.
Proof.
  unfold join. induction l as [|y l IH]; [congruence|]. intros _.
  destruct l as [|z l].
  - reflexivity.
  - change (String.concat sep ((y :: z :: l) ++ [x]))
      with (y +:+ sep +:+ String.concat sep ((z :: l) ++ [x])).
    rewrite IH by discriminate.
    change (String.concat sep (y :: z :: l)) with (y +:+ sep +:+ String.concat sep (z :: l)).
    rewrite !string_app_assoc. reflexivity.
Qed.

Lemma path_str_snoc (rt x : string) (tl : list string) :
  tl <> [] -> path_str (mkPath rt (tl ++ [x])) = path_str (mkPath rt tl) +:+ "/" +:+ x.
Proof.
  intros Htl. destruct tl as [|y tl]; [congruence|].
  pose proof (join_snoc "/" x (y :: tl) Htl) as E.
  unfold path_str. cbn [root tail app] in *.
  destruct rt; rewrite E, ?string_app_assoc; reflexivity.
Qed.

Section Names.

Variable module_file : string.
Variable cwd : list string.

(** A plain file name (no slash, not empty, not a dot) resolves to the
    output directory, a slash and the name; the empty name and the dot
    resolve to the output directory itself. *)
Theorem plain_name_resolves_under_output_dir (fname : string) :
  has_char "/" fname = false ->
  resolve module_file cwd fname =
    if is_component fname
    then path_str (BASE_OUTPUT_DIR module_file cwd) +:+ "/" +:+ fname
    else path_str (BASE_OUTPUT_DIR module_file cwd).
Proof.
  intros H. destruct (artifact_path module_file cwd fname) as (Er & _ & _ & _ & _).
  rewrite Er. clear Er.
  rewrite absolute_id by apply truediv_is_absolute, BASE_OUTPUT_DIR_absolute.
  rewrite truediv_relative by (apply has_char_startswith; exact H).
  rewrite (parse_path_plain fname H). cbn [tail].
  rewrite BASE_OUTPUT_DIR_parts. cbn [root tail].
  destruct (is_component fname).
  - apply path_str_snoc. intros E. apply app_eq_nil in E. destruct E; discriminate.
  - rewrite app_nil_r. reflexivity.
Qed.

(** The directory of the models and the directory of the outputs are two
    different directories side by side under the directory of the module:
    both absolute, both under it, neither inside the other, whether places
    or mere components are compared. *)
Theorem model_and_output_dirs_apart :
  is_absolute (MODEL_DIR module_file cwd) = true /\
  is_absolute (BASE_OUTPUT_DIR module_file cwd) = true /\
  path_prefix (WORKSPACE_DIR module_file cwd) (MODEL_DIR module_file cwd) /\
  path_prefix (WORKSPACE_DIR module_file cwd) (BASE_OUTPUT_DIR module_file cwd) /\
  ~ path_prefix (MODEL_DIR module_file cwd) (BASE_OUTPUT_DIR module_file cwd) /\
  ~ path_prefix (BASE_OUTPUT_DIR module_file cwd) (MODEL_DIR module_file cwd) /\
  rooted_under (WORKSPACE_DIR module_file cwd) (MODEL_DIR module_file cwd) /\
  rooted_under (WORKSPACE_DIR module_file cwd) (BASE_OUTPUT_DIR module_file cwd) /\
  ~ rooted_under (MODEL_DIR module_file cwd) (BASE_OUTPUT_DIR module_file cwd) /\
  ~ rooted_under (BASE_OUTPUT_DIR module_file cwd) (MODEL_DIR module_file cwd).
Proof.
  assert (Em : MODEL_DIR module_file cwd =
               mkPath (root (WORKSPACE_DIR module_file cwd))
                      (tail (WORKSPACE_DIR module_file cwd) ++ ["models"])).
  { unfold MODEL_DIR. rewrite truediv_relative; reflexivity. }
  pose proof (BASE_OUTPUT_DIR_parts module_file cwd) as Eb.
  pose proof (WORKSPACE_DIR_absolute module_file cwd) as Hw.
  assert (Hne : forall (l rest : list string) (x y : string),
             x <> y -> l ++ [x] = (l ++ [y]) ++ rest -> False).
  { intros l rest x y Hxy E. rewrite <- app_assoc in E. apply app_inv_head in E.
    destruct rest; simpl in E; congruence. }
  assert (Hone : forall x : string, x <> ".." -> ~ In ".." [x]).
  { intros x Hx [H|[]]. congruence. }
  assert (Rm : resolved (MODEL_DIR module_file cwd) =
               resolved (WORKSPACE_DIR module_file cwd) ++ ["models"]).
  { rewrite Em. apply resolved_under; [exact Hw|]. apply Hone. discriminate. }
  assert (Rb : resolved (BASE_OUTPUT_DIR module_file cwd) =
               resolved (WORKSPACE_DIR module_file cwd) ++ ["output"]).
  { rewrite Eb. apply resolved_under; [exact Hw|]. apply Hone. discriminate. }
  split; [apply truediv_is_absolute, WORKSPACE_DIR_absolute|].
  split; [apply BASE_OUTPUT_DIR_absolute|].
  split; [rewrite Em; split; [reflexivity|]; cbn [tail]; eauto|].
  split; [rewrite Eb; split; [reflexivity|]; cbn [tail]; eauto|].
  split; [rewrite Em, Eb; intros [_ [rest E]]; cbn [tail] in E;
          eapply Hne; [|exact E]; discriminate|].
  split; [rewrite Em, Eb; intros [_ [rest E]]; cbn [tail] in E;
          eapply Hne; [|exact E]; discriminate|].
  split; [split; [rewrite Em; reflexivity|]; rewrite Rm; eauto|].
  split; [split; [rewrite Eb; reflexivity|]; rewrite Rb; eauto|].
  split; intros [_ [rest E]]; rewrite Rm, Rb in E; (eapply Hne; [|exact E]); discriminate.
Qed.

End Names.

Lemma plain_name_resolves_under_output_dir_witness :
  has_char "/" "a.wav" = false /\
  resolve ex_module_file ex_cwd "a.wav" = "/app/output/a.wav".
Proof.
  assert (H : has_char "/" "a.wav" = false) by (vm_compute; reflexivity).
  split; [exact H|].
  rewrite (plain_name_resolves_under_output_dir ex_module_file ex_cwd "a.wav" H).
  vm_compute. reflexivity.
Defined.

(** ** The text endpoint *)

Module TTSFacts.

Import TTS.

Lemma string_length_app (a b : string) :
  String.length (a +:+ b) = String.length a + String.length b.
Proof.
  induction a as [|c a IH]; [reflexivity|].
  change (S (String.length (a +:+ b)) = S (String.length a + String.length b)).
  rewrite IH. reflexivity.
Qed.

Lemma str_mul_nat_length (s : string) (n : nat) :
  String.length (str_mul_nat s n) = n * String.length s.
Proof.
  induction n as [|n IH]; [reflexivity|]. cbn [str_mul_nat].
  rewrite string_length_app, IH. simpl. lia.
Qed.

Lemma str_mul_nat_add (s : string) (a b : nat) :
  str_mul_nat s (a + b) = str_mul_nat s a +:+ str_mul_nat s b.
Proof.
  induction a as [|a IH]; [reflexivity|]. cbn [Nat.add str_mul_nat].
  rewrite IH, string_app_assoc. reflexivity.
Qed.

Lemma string_app_nil_r (s : string) : s +:+ "" = s.
Proof.
  induction s as [|c s IH]; [reflexivity|].
  change (String c (s +:+ "") = String c s). rewrite IH. reflexivity.
Qed.

Lemma str_mul_nat_empty (n : nat) : str_mul_nat "" n = "".
Proof. induction n as [|n IH]; [reflexivity|]. exact IH. Qed.

Section RepeatFacts.

Variable can_allocate : Z -> bool.

(** When the product returns, it is the copies of the text. *)
Lemma str_mul_returns (s : string) (n : Z) (r : string) :
  str_mul can_allocate s n = inr r -> r = str_mul_nat s (Z.to_nat n).
Proof.
  unfold str_mul.
  destruct ((n <? - PY_SSIZE_T_MAX - 1) || (PY_SSIZE_T_MAX <? n))%Z; [discriminate|].
  destruct (Z.ltb_spec n 1) as [H1|H1].
  { intros E. injection E as <-. replace (Z.to_nat n) with 0 by lia. reflexivity. }
  destruct (Z.eqb_spec n 1) as [-> | Hn1].
  { intros E. injection E as <-. change (Z.to_nat 1) with 1. cbn [str_mul_nat].
    symmetry. apply string_app_nil_r. }
  destruct (PY_SSIZE_T_MAX / n <? Z.of_nat (String.length s))%Z; [discriminate|].
  destruct (Z.eqb_spec (n * Z.of_nat (String.length s)) 0) as [H0|H0].
  { intros E. injection E as <-.
    assert (Hs : s = "") by (destruct s; [reflexivity|simpl in H0; nia]).
    rewrite Hs. symmetry. apply str_mul_nat_empty. }
  destruct (can_allocate (n * Z.of_nat (String.length s))%Z); [|discriminate].
  intros E. injection E as <-. reflexivity.
Qed.

Lemma tts_returns (input : FooInput) (out : FooOutput) :
  tts can_allocate input = inr out ->
  result out = str_mul_nat (text input) (Z.to_nat (repeat input)).
Proof.
  unfold tts. destruct (str_mul can_allocate (text input) (repeat input)) as [e|r] eqn:E;
    [discriminate|].
  intros H. injection H as <-. cbn [result]. exact (str_mul_returns _ _ _ E).
Qed.

Lemma tts_returns_when (input : FooInput) :
  (exists out, tts can_allocate input = inr out) <->
  (- PY_SSIZE_T_MAX - 1 <= repeat input <= PY_SSIZE_T_MAX)%Z /\
  ((1 < repeat input)%Z ->
     (Z.of_nat (String.length (text input)) <= PY_SSIZE_T_MAX / repeat input)%Z /\
     ((repeat input * Z.of_nat (String.length (text input)))%Z = 0%Z \/
      can_allocate (repeat input * Z.of_nat (String.length (text input)))%Z = true)).
Proof.
  unfold tts, str_mul. set (n := repeat input). set (len := Z.of_nat (String.length (text input))).
  destruct (Z.ltb_spec n (- PY_SSIZE_T_MAX - 1)) as [Hlo|Hlo]; cbn [orb].
  { split; [intros [out H]; discriminate|]. intros [[H _] _]. lia. }
  destruct (Z.ltb_spec PY_SSIZE_T_MAX n) as [Hhi|Hhi].
  { split; [intros [out H]; discriminate|]. intros [[_ H] _]. lia. }
  destruct (Z.ltb_spec n 1) as [H1|H1].
  { split; [|eauto]. intros _. split; [lia|]. intros H. lia. }
  destruct (Z.eqb_spec n 1) as [E1|E1].
  { split; [|eauto]. intros _. split; [lia|]. intros H. lia. }
  destruct (Z.ltb_spec (PY_SSIZE_T_MAX / n) len) as [Hd|Hd].
  { split; [intros [out H]; discriminate|]. intros [_ H]. destruct H as [H _]; lia. }
  destruct (Z.eqb_spec (n * len) 0) as [H0|H0].
  { split; [|eauto]. intros _. split; [lia|]. intros _. split; [exact Hd|left; exact H0]. }
  destruct (can_allocate (n * len)%Z) eqn:Ec.
  { split; [|eauto]. intros _. split; [lia|]. intros _. split; [exact Hd|right; reflexivity]. }
  split; [intros [out H]; discriminate|]. intros [_ H].
  destruct H as [_ [H|H]]; [lia|contradiction|discriminate].
Qed.

Lemma tts_overflow_when (input : FooInput) :
  (exists msg, tts can_allocate input = inl (OverflowError msg)) <->
  (repeat input < - PY_SSIZE_T_MAX - 1)%Z \/ (PY_SSIZE_T_MAX < repeat input)%Z \/
  ((1 < repeat input)%Z /\
   (PY_SSIZE_T_MAX / repeat input < Z.of_nat (String.length (text input)))%Z).
Proof.
  unfold tts, str_mul. set (n := repeat input). set (len := Z.of_nat (String.length (text input))).
  destruct (Z.ltb_spec n (- PY_SSIZE_T_MAX - 1)) as [Hlo|Hlo]; cbn [orb].
  { split; [intros _; left; exact Hlo|eauto]. }
  destruct (Z.ltb_spec PY_SSIZE_T_MAX n) as [Hhi|Hhi].
  { split; [intros _; right; left; exact Hhi|eauto]. }
  destruct (Z.ltb_spec n 1) as [H1|H1].
  { split; [intros [msg H]; discriminate|]. intros [H|[H|[H _]]]; lia. }
  destruct (Z.eqb_spec n 1) as [E1|E1].
  { split; [intros [msg H]; discriminate|]. intros [H|[H|[H _]]]; lia. }
  destruct (Z.ltb_spec (PY_SSIZE_T_MAX / n) len) as [Hd|Hd].
  { split; [intros _; right; right; split; [lia|exact Hd]|eauto]. }
  destruct (Z.eqb_spec (n * len) 0) as [H0|H0].
  { split; [intros [msg H]; discriminate|]. intros [H|[H|[_ H]]]; lia. }
  destruct (can_allocate (n * len)%Z).
  { split; [intros [msg H]; discriminate|]. intros [H|[H|[_ H]]]; lia. }
  split; [intros [msg H]; discriminate|]. intros [H|[H|[_ H]]]; lia.
Qed.

(** The result holds as many characters as the text times the count, a
    count that is not positive counting as zero: the length of the answer
    is under the control of the caller.  The call returns exactly when the
    count fits a [Py_ssize_t] and, for a count above one, the length of
    the result fits too and the result is empty or can be allocated: so a
    negative count within the range is not an error.  It raises
    [OverflowError] exactly when the count does not fit, or is above one
    and the length of the result does not fit. *)
Theorem tts_result_length (input : FooInput) :
  (forall out, tts can_allocate input = inr out ->
     Z.of_nat (String.length (result out)) =
     (Z.max 0 (repeat input) * Z.of_nat (String.length (text input)))%Z) /\
  ((exists out, tts can_allocate input = inr out) <->
     (- PY_SSIZE_T_MAX - 1 <= repeat input <= PY_SSIZE_T_MAX)%Z /\
     ((1 < repeat input)%Z ->
        (Z.of_nat (String.length (text input)) <= PY_SSIZE_T_MAX / repeat input)%Z /\
        ((repeat input * Z.of_nat (String.length (text input)))%Z = 0%Z \/
         can_allocate (repeat input * Z.of_nat (String.length (text input)))%Z = true))) /\
  ((exists msg, tts can_allocate input = inl (OverflowError msg)) <->
     (repeat input < - PY_SSIZE_T_MAX - 1)%Z \/ (PY_SSIZE_T_MAX < repeat input)%Z \/
     ((1 < repeat input)%Z /\
      (PY_SSIZE_T_MAX / repeat input < Z.of_nat (String.length (text input)))%Z)).
Proof.
  split; [|split; [apply tts_returns_when|apply tts_overflow_when]].
  intros out H. rewrite (tts_returns _ _ H), str_mul_nat_length. lia.
Qed.

(** A count of zero or less gives the empty result, whatever the text and
    without any allocation, as long as it fits a [Py_ssize_t]; below
    [-(2 ** 63)] the call raises [OverflowError]. *)
Theorem tts_nonpositive_repeat_empty (input : FooInput) :
  (repeat input <= 0)%Z ->
  if (repeat input <? - PY_SSIZE_T_MAX - 1)%Z
  then tts can_allocate input =
       inl (OverflowError "cannot fit 'int' into an index-sized integer")
  else tts can_allocate input = inr (mkFooOutput "").
Proof.
  intros H. unfold tts, str_mul.
  destruct (Z.ltb_spec (repeat input) (- PY_SSIZE_T_MAX - 1)) as [Hlo|Hlo]; cbn [orb];
    [reflexivity|].
  destruct (Z.ltb_spec PY_SSIZE_T_MAX (repeat input)) as [Hhi|Hhi];
    [unfold PY_SSIZE_T_MAX in Hhi; lia|].
  destruct (Z.ltb_spec (repeat input) 1) as [H1|H1]; [reflexivity|lia].
Qed.

(** Counts add up as far as the calls return: for counts that are not
    negative, the result for [a + b] is the result for [a] followed by the
    result for [b], and a call for [a + b] that returns shows that the
    call for [a] does not raise [OverflowError]; with the default count the
    call returns the text.  The call for [a + b] can raise where those for
    [a] and [b] return: the empty text with twice [2 ** 62]. *)
Theorem tts_repeat_add (t : string) (a b : Z) :
  (0 <= a)%Z -> (0 <= b)%Z ->
  (forall ra rb rab,
     tts can_allocate (mkFooInput t a) = inr ra ->
     tts can_allocate (mkFooInput t b) = inr rb ->
     tts can_allocate (mkFooInput t (a + b)) = inr rab ->
     result rab = result ra +:+ result rb) /\
  (forall rab msg,
     tts can_allocate (mkFooInput t (a + b)) = inr rab ->
     tts can_allocate (mkFooInput t a) <> inl (OverflowError msg)) /\
  tts can_allocate (mkFooInput t default_repeat) = inr (mkFooOutput t) /\
  tts can_allocate (mkFooInput "" 4611686018427387904) = inr (mkFooOutput "") /\
  tts can_allocate (mkFooInput "" (4611686018427387904 + 4611686018427387904)) =
    inl (OverflowError "cannot fit 'int' into an index-sized integer").
Proof.
  intros Ha Hb. split; [|split; [|split; [|split]]]; try reflexivity.
  - intros ra rb rab Ea Eb Eab.
    rewrite (tts_returns _ _ Ea), (tts_returns _ _ Eb), (tts_returns _ _ Eab).
    cbn [text repeat]. rewrite Z2Nat.inj_add by assumption. apply str_mul_nat_add.
  - intros rab msg Eab Ea.
    destruct (tts_returns_when (mkFooInput t (a + b))) as [Hab _].
    destruct (tts_overflow_when (mkFooInput t a)) as [Hov _].
    destruct (Hab (ex_intro _ rab Eab)) as [Hrange Hlen]. cbn [text repeat] in *.
    destruct (Hov (ex_intro _ msg Ea)) as [H|[H|[H1 H]]]; [unfold PY_SSIZE_T_MAX in *; lia|lia|].
    destruct (Hlen ltac:(lia)) as [Hd _].
    assert (PY_SSIZE_T_MAX / (a + b) <= PY_SSIZE_T_MAX / a)%Z
      by (apply Z.div_le_compat_l; [unfold PY_SSIZE_T_MAX|]; lia).
    lia.
Qed.

End RepeatFacts.

Lemma tts_result_length_witness :
  tts (fun _ => true) (mkFooInput "ab" 3) = inr (mkFooOutput "ababab") /\
  Z.of_nat (String.length "ababab") = (Z.max 0 3 * Z.of_nat (String.length "ab"))%Z.
Proof.
  split; [reflexivity|].
  destruct (tts_result_length (fun _ => true) (mkFooInput "ab" 3)) as (H & _).
  exact (H (mkFooOutput "ababab") eq_refl).
Defined.

Lemma tts_nonpositive_repeat_empty_witness :
  (repeat (mkFooInput "abc" (-2)) <= 0)%Z /\
  tts (fun _ => false) (mkFooInput "abc" (-2)) = inr (mkFooOutput "").
Proof.
  assert (H : (repeat (mkFooInput "abc" (-2)) <= 0)%Z) by (simpl; lia).
  split; [exact H|]. exact (tts_nonpositive_repeat_empty (fun _ => false) _ H).
Defined.

Lemma tts_repeat_add_witness :
  (0 <= 2)%Z /\ (0 <= 1)%Z /\
  tts (fun _ => true) (mkFooInput "ab" 2) = inr (mkFooOutput "abab") /\
  tts (fun _ => true) (mkFooInput "ab" 1) = inr (mkFooOutput "ab") /\
  tts (fun _ => true) (mkFooInput "ab" (2 + 1)) = inr (mkFooOutput "ababab") /\
  result (mkFooOutput "ababab") = result (mkFooOutput "abab") +:+ result (mkFooOutput "ab").
Proof.
  assert (Ha : (0 <= 2)%Z) by lia. assert (Hb : (0 <= 1)%Z) by lia.
  split; [exact Ha|]. split; [exact Hb|].
  split; [reflexivity|]. split; [reflexivity|]. split; [reflexivity|].
  destruct (tts_repeat_add (fun _ => true) "ab" 2 1 Ha Hb) as (H & _).
  exact (H (mkFooOutput "abab") (mkFooOutput "ab") (mkFooOutput "ababab")
           eq_refl eq_refl eq_refl).
Defined.

End TTSFacts.

(** ** The user interface *)

Module UIFacts.

Import UI.

Section Render.

Variable Samples : Type.

Local Abbreviation File := (File Samples).
Local Abbreviation Audio := (Audio Samples).
Local Abbreviation render_audios_and_clean := (render_audios_and_clean Samples).

Lemma render_returns_updates (audio_paths : list string)
    (fs fs' : gmap string File) (updates : list Audio) :
  render_audios_and_clean audio_paths fs = (inr updates, fs') ->
  length updates = MAX_AUDIO_NUM /\
  NoDup (take MAX_AUDIO_NUM audio_paths) /\
  (forall i, i < MAX_AUDIO_NUM ->
     match audio_paths !! i with
     | Some p =>
         exists data sr,
           fs !! p = Some (AudioFile Samples data sr) /\
           updates !! i = Some (shown_audio Samples i p sr data) /\
           fs' !! p = None
     | None => updates !! i = Some (hidden_audio Samples i)
     end) /\
  (forall q, ~ In q (take MAX_AUDIO_NUM audio_paths) -> fs' !! q = fs !! q).
Proof.
  unfold render_audios_and_clean, UI.render_audios_and_clean, MAX_AUDIO_NUM.
  cbn [seq render_from].
  destruct audio_paths as [|p0 [|p1 rest]]; cbn [lookup list_lookup take app].
  - intros [= <- <-]. split; [reflexivity|]. split; [constructor|]. split; [|reflexivity].
    intros [|[|i]] Hi; try lia; reflexivity.
  - destruct (fs !! p0) as [[d0 sr0|]|] eqn:E0; try discriminate.
    intros [= <- <-]. split; [reflexivity|].
    split; [repeat constructor; rewrite list_elem_of_In; intros []|]. split.
    + intros [|[|i]] Hi; try lia; cbn [lookup list_lookup].
      * exists d0, sr0. rewrite lookup_delete_eq. auto.
      * reflexivity.
    + intros q Hq. apply lookup_delete_ne. intros ->. apply Hq. left. reflexivity.
  - destruct (fs !! p0) as [[d0 sr0|]|] eqn:E0; try discriminate.
    destruct (delete p0 fs !! p1) as [[d1 sr1|]|] eqn:E1; try discriminate.
    intros [= <- <-].
    assert (Hne : p0 <> p1).
    { intros ->. rewrite lookup_delete_eq in E1. discriminate. }
    rewrite lookup_delete_ne in E1 by exact Hne.
    split; [reflexivity|].
    split; [repeat constructor; rewrite list_elem_of_In;
            [intros [H|[]]; congruence | intros []]|].
    split.
    + intros [|[|i]] Hi; try lia; cbn [lookup list_lookup].
      * exists d0, sr0. split; [exact E0|]. split; [reflexivity|].
        rewrite lookup_delete_ne by congruence. apply lookup_delete_eq.
      * exists d1, sr1. split; [exact E1|]. split; [reflexivity|].
        apply lookup_delete_eq.
    + intros q Hq. rewrite !lookup_delete_ne; [reflexivity| |].
      * intros ->. apply Hq. left. reflexivity.
      * intros ->. apply Hq. right. left. reflexivity.
Qed.

(** A call of [render_audios_and_clean] that returns: it gives one update
    per output component, [MAX_AUDIO_NUM] in all; the paths at the first
    [MAX_AUDIO_NUM] places were distinct audio files, each is shown under
    its path with its samples and has been unlinked; the other components
    are hidden; every other file, also an artifact listed after the first
    [MAX_AUDIO_NUM], is left on disk as it was. *)
Theorem render_shows_and_unlinks (audio_paths : list string)
    (fs fs' : gmap string File) (updates : list Audio) :
  render_audios_and_clean audio_paths fs = (inr updates, fs') ->
  length updates = MAX_AUDIO_NUM /\
  NoDup (take MAX_AUDIO_NUM audio_paths) /\
  (forall i, i < MAX_AUDIO_NUM ->
     match audio_paths !! i with
     | Some p =>
         exists data sr,
           fs !! p = Some (AudioFile Samples data sr) /\
           updates !! i = Some (shown_audio Samples i p sr data) /\
           fs' !! p = None
     | None => updates !! i = Some (hidden_audio Samples i)
     end) /\
  (forall q, ~ In q (take MAX_AUDIO_NUM audio_paths) -> fs' !! q = fs !! q).
Proof. apply render_returns_updates. Qed.

(** A call of [render_audios_and_clean] that raises: the exception is the
    one of [soundfile.read] on one of the first [MAX_AUDIO_NUM] paths, no
    update is returned, the files shown before it are already unlinked and
    nothing else has changed.  The path need not be missing from the
    start: the same path given twice fails at its second place, because
    its first place has unlinked it. *)
Theorem render_error_after_unlinks (audio_paths : list string)
    (fs fs' : gmap string File) (err : UIError) :
  render_audios_and_clean audio_paths fs = (inl err, fs') ->
  exists i p,
    i < MAX_AUDIO_NUM /\ audio_paths !! i = Some p /\ err = SoundFileError p /\
    (forall data sr, fs' !! p <> Some (AudioFile Samples data sr)) /\
    (forall k q, k < i -> audio_paths !! k = Some q ->
       (exists data sr, fs !! q = Some (AudioFile Samples data sr)) /\ fs' !! q = None) /\
    (forall q, ~ In q (take i audio_paths) -> fs' !! q = fs !! q).
Proof.
  unfold render_audios_and_clean, UI.render_audios_and_clean, MAX_AUDIO_NUM.
  cbn [seq render_from].
  destruct audio_paths as [|p0 [|p1 rest]]; cbn [lookup list_lookup].
  - discriminate.
  - destruct (fs !! p0) as [[d0 sr0|]|] eqn:E0; try discriminate;
      intros [= <- <-]; exists 0, p0;
      (split; [lia|]); (split; [reflexivity|]); (split; [reflexivity|]);
      (split; [intros data sr; rewrite E0; discriminate|]);
      (split; [intros k q Hk; lia | reflexivity]).
  - destruct (fs !! p0) as [[d0 sr0|]|] eqn:E0;
      [destruct (delete p0 fs !! p1) as [[d1 sr1|]|] eqn:E1; try discriminate| |].
    + intros [= <- <-]. exists 1, p1.
      split; [lia|]. split; [reflexivity|]. split; [reflexivity|].
      split; [intros data sr; rewrite E1; discriminate|]. split.
      * intros [|k] q Hk Hq; [|lia]. cbn [lookup list_lookup] in Hq. injection Hq as <-.
        split; [eauto|apply lookup_delete_eq].
      * intros q Hq. apply lookup_delete_ne. intros ->. apply Hq. left. reflexivity.
    + intros [= <- <-]. exists 1, p1.
      split; [lia|]. split; [reflexivity|]. split; [reflexivity|].
      split; [intros data sr; rewrite E1; discriminate|]. split.
      * intros [|k] q Hk Hq; [|lia]. cbn [lookup list_lookup] in Hq. injection Hq as <-.
        split; [eauto|apply lookup_delete_eq].
      * intros q Hq. apply lookup_delete_ne. intros ->. apply Hq. left. reflexivity.
    + intros [= <- <-]. exists 0, p0.
      split; [lia|]. split; [reflexivity|]. split; [reflexivity|].
      split; [intros data sr; rewrite E0; discriminate|].
      split; [intros k q Hk; lia | reflexivity].
    + intros [= <- <-]. exists 0, p0.
      split; [lia|]. split; [reflexivity|]. split; [reflexivity|].
      split; [intros data sr; rewrite E0; discriminate|].
      split; [intros k q Hk; lia | reflexivity].
Qed.

(** The same artifact listed twice: the second read fails. *)
Theorem render_same_path_twice (p : string) (rest : list string)
    (fs : gmap string File) (data : Samples) (sr : nat) :
  fs !! p = Some (AudioFile Samples data sr) ->
  render_audios_and_clean (p :: p :: rest) fs = (inl (SoundFileError p), delete p fs).
Proof.
  intros E. unfold render_audios_and_clean, UI.render_audios_and_clean, MAX_AUDIO_NUM.
  cbn [seq render_from lookup list_lookup]. rewrite E, lookup_delete_eq. reflexivity.
Qed.

End Render.

End UIFacts.

(** ** The user interface over a job *)

Section Updates.

Variable Samples : Type.

Lemma run_and_update_hidden (pairs : list (string * option (list string)))
    (post : list (string * option (list string))) (fs : gmap string (UI.File Samples)) :
  Forall (fun y => snd y = None) pairs ->
  UI._run_and_update Samples (pairs ++ post) fs =
  let '(us, err, fs') := UI._run_and_update Samples post fs in
  (map (hidden_update Samples) pairs ++ us, err, fs').
Proof.
  induction 1 as [|[text files] pairs Hy _ IH].
  - simpl. destruct (UI._run_and_update Samples post fs) as [[us err] fs']. reflexivity.
  - simpl in Hy. subst files. cbn [app UI._run_and_update UI.update_of_pair].
    rewrite IH. destruct (UI._run_and_update Samples post fs) as [[us err] fs'].
    reflexivity.
Qed.

Variable module_file : string.
Variable cwd : list string.
Variable is_file : string -> bool.

(** A failed job shows no audio.  When the Processor raised an
    [Exception] with a message, every update of the finished job, the last
    one included, hides all output components, nothing is read or unlinked
    on disk, and [_run_and_update] itself raises nothing: the failure
    reaches the user through the text only. *)
Theorem failed_job_hides_audio audio evs e s0 sched s tr j
    (fs : gmap string (UI.File Samples)) :
  start is_file audio (evs, Raises e) empty_system = (s0, inr 0) ->
  is_Exception e = true -> exc_str e <> "" ->
  run module_file cwd sched s0 = (s, tr) -> jobs s !! 0 = Some j -> gen j = GDone ->
  UI._run_and_update Samples (yields 0 tr) fs =
    (map (hidden_update Samples) (yields 0 tr), None, fs) /\
  length (yields 0 tr) = length (relay_lines evs) + 1.
Proof.
  intros Hs He Hm Hr Hj Hg. apply start_first in Hs. destruct Hs as [-> _].
  destruct (single_finished _ _ _ _ _ _ _ _ Hr Hj Hg) as (Hy & _).
  rewrite expected_final_error in Hy by assumption. rewrite Hy. split.
  - rewrite <- (app_nil_r (_ ++ [_])) at 1. rewrite run_and_update_hidden.
    + simpl. rewrite app_nil_r. reflexivity.
    + apply Forall_app. split; [apply intermediate_absent|]. repeat constructor.
  - rewrite length_app, intermediate_length. reflexivity.
Qed.

(** A finished job with one artifact.  When the Processor returned one
    name and the file at its resolved path decodes, the updates are the
    hidden ones of the intermediate pairs and then one update that shows
    the artifact in the first component, labelled with its path, and hides
    the second; the file is unlinked. *)
Theorem finished_job_renders_artifact audio evs fname s0 sched s tr j
    (fs : gmap string (UI.File Samples)) (data : Samples) (sr : nat) :
  start is_file audio (evs, Returns (Some [fname])) empty_system = (s0, inr 0) ->
  run module_file cwd sched s0 = (s, tr) -> jobs s !! 0 = Some j -> gen j = GDone ->
  fs !! resolve module_file cwd fname = Some (UI.AudioFile Samples data sr) ->
  UI._run_and_update Samples (yields 0 tr) fs =
    (map (hidden_update Samples) (intermediate (relay_lines evs)) ++
       [(join newline (relay_lines evs),
         [UI.shown_audio Samples 0 (resolve module_file cwd fname) sr data;
          UI.hidden_audio Samples 1])],
     None,
     delete (resolve module_file cwd fname) fs).
Proof.
  intros Hs Hr Hj Hg Hf. apply start_first in Hs. destruct Hs as [-> _].
  destruct (single_finished _ _ _ _ _ _ _ _ Hr Hj Hg) as (Hy & _).
  rewrite expected_final_returns in Hy. rewrite Hy.
  rewrite run_and_update_hidden by apply intermediate_absent.
  cbn [UI._run_and_update UI.update_of_pair files_or_empty map].
  unfold UI.render_audios_and_clean, UI.MAX_AUDIO_NUM.
  cbn [seq UI.render_from lookup list_lookup]. rewrite Hf.
  cbn [lookup list_lookup app]. reflexivity.
Qed.

(** An artifact that cannot be read.  When the file at the resolved path
    of the first name is missing or does not decode, [_run_and_update]
    yields the updates of the intermediate pairs and then raises the
    exception of [soundfile.read]: the final text of the job is never
    delivered, and nothing is unlinked. *)
Theorem unreadable_artifact_raises audio evs fname rest s0 sched s tr j
    (fs : gmap string (UI.File Samples)) :
  start is_file audio (evs, Returns (Some (fname :: rest))) empty_system = (s0, inr 0) ->
  run module_file cwd sched s0 = (s, tr) -> jobs s !! 0 = Some j -> gen j = GDone ->
  (forall data sr, fs !! resolve module_file cwd fname <> Some (UI.AudioFile Samples data sr)) ->
  UI._run_and_update Samples (yields 0 tr) fs =
    (map (hidden_update Samples) (intermediate (relay_lines evs)),
     Some (UI.SoundFileError (resolve module_file cwd fname)),
     fs).
Proof.
  intros Hs Hr Hj Hg Hf. apply start_first in Hs. destruct Hs as [-> _].
  destruct (single_finished _ _ _ _ _ _ _ _ Hr Hj Hg) as (Hy & _).
  rewrite expected_final_returns in Hy. rewrite Hy.
  rewrite run_and_update_hidden by apply intermediate_absent.
  cbn [UI._run_and_update UI.update_of_pair files_or_empty map].
  unfold UI.render_audios_and_clean, UI.MAX_AUDIO_NUM.
  cbn [seq UI.render_from lookup list_lookup].
  destruct (fs !! resolve module_file cwd fname) as [[d sr|]|] eqn:E.
  - exfalso. exact (Hf d sr eq_refl).
  - rewrite app_nil_r. reflexivity.
  - rewrite app_nil_r. reflexivity.
Qed.

End Updates.

(** ** The further properties at concrete inputs *)

Lemma logs_follow_emission_order_witness :
  start ex_is_file "in.wav" ex_disk_full empty_system = (ex_job ex_disk_full, inr 0) /\
  exists done rest,
    fst ex_disk_full = done ++ rest /\
    logs (mkJob (parse_path "in.wav") ["12:00:01 - INFO - loading model"] None
            (Some "disk full") (TFinally false) GPoll []) ++
    waiting_lines (log_q (mkJob (parse_path "in.wav") ["12:00:01 - INFO - loading model"] None
            (Some "disk full") (TFinally false) GPoll [])) = relay_lines done.
Proof.
  assert (Hj : jobs (fst (ex_run [Worker 0; Worker 0] ex_disk_full)) !! 0 =
               Some (mkJob (parse_path "in.wav") ["12:00:01 - INFO - loading model"] None
                       (Some "disk full") (TFinally false) GPoll []))
    by (vm_compute; reflexivity).
  split; [apply ex_job_started|].
  destruct (logs_follow_emission_order ex_module_file ex_cwd ex_is_file
              "in.wav" ex_disk_full (ex_job ex_disk_full) [Worker 0; Worker 0]
              (fst (ex_run [Worker 0; Worker 0] ex_disk_full))
              (snd (ex_run [Worker 0; Worker 0] ex_disk_full)) _
              (ex_job_started _) (ex_run_pair _ _) Hj) as ((done & rest & E & Hl & _) & _).
  exists done, rest. split; [exact E|exact Hl].
Defined.

Lemma dropped_records_leave_no_mark_witness :
  start ex_is_file "in.wav" ex_noisy empty_system = (ex_job ex_noisy, inr 0) /\
  List.filter relayed (fst ex_noisy) = [ex_record] /\
  yields 0 (snd (ex_run ex_schedule_noisy ex_noisy)) =
  yields 0 (snd (ex_run ex_schedule ex_success)).
Proof.
  assert (Hj : jobs (fst (ex_run ex_schedule_noisy ex_noisy)) !! 0 =
               Some (mkJob (parse_path "in.wav") [] (Some ["a.wav"]) None TDone GDone
                       ["12:00:01 - INFO - loading model"]))
    by (vm_compute; reflexivity).
  assert (Hj' : jobs (fst (ex_run ex_schedule ex_success)) !! 0 =
               Some (mkJob (parse_path "in.wav") [] (Some ["a.wav"]) None TDone GDone
                       ["12:00:01 - INFO - loading model"]))
    by (vm_compute; reflexivity).
  split; [apply ex_job_started|]. split; [vm_compute; reflexivity|].
  apply (dropped_records_leave_no_mark ex_module_file ex_cwd ex_is_file
           "in.wav" [ex_debug_record; ex_record] (Returns (Some ["a.wav"]))
           (ex_job ex_noisy) (ex_job ex_success) ex_schedule_noisy ex_schedule
           (fst (ex_run ex_schedule_noisy ex_noisy)) (fst (ex_run ex_schedule ex_success))
           (snd (ex_run ex_schedule_noisy ex_noisy)) (snd (ex_run ex_schedule ex_success))
           _ _
           (ex_job_started _) (ex_job_started ex_success)
           (ex_run_pair _ _) Hj eq_refl (ex_run_pair _ _) Hj' eq_refl).
Defined.

Lemma unrecorded_failure_looks_like_success_witness :
  start ex_is_file "in.wav" ex_empty_message empty_system = (ex_job ex_empty_message, inr 0) /\
  exc_str (mkExc true "") = "" /\
  last (yields 0 (snd (ex_run ex_schedule ex_empty_message))) =
    Some (join newline (relay_lines [ex_record]), Some []).
Proof.
  assert (Hj : jobs (fst (ex_run ex_schedule ex_empty_message)) !! 0 =
               Some (mkJob (parse_path "in.wav") [] None (Some "") TDone GDone
                       ["12:00:01 - INFO - loading model"]))
    by (vm_compute; reflexivity).
  split; [apply ex_job_started|]. split; [reflexivity|].
  apply (unrecorded_failure_looks_like_success ex_module_file ex_cwd ex_is_file
           "in.wav" [ex_record] (mkExc true "") (ex_job ex_empty_message) ex_schedule
           (fst (ex_run ex_schedule ex_empty_message))
           (snd (ex_run ex_schedule ex_empty_message)) _
           (ex_job_started _) (or_intror eq_refl) (ex_run_pair _ _) Hj eq_refl).
Defined.

Lemma handler_attached_until_detach_witness :
  start ex_is_file "in.wav" ex_disk_full empty_system = (ex_job ex_disk_full, inr 0) /\
  handlers (fst (ex_run ex_schedule ex_disk_full)) = [] /\
  handlers (fst (ex_run [Worker 0; Worker 0] ex_disk_full)) = [0].
Proof.
  assert (Hj : jobs (fst (ex_run ex_schedule ex_disk_full)) !! 0 =
               Some (mkJob (parse_path "in.wav") [] None (Some "disk full") TDone GDone
                       ["12:00:01 - INFO - loading model"]))
    by (vm_compute; reflexivity).
  assert (Hj' : jobs (fst (ex_run [Worker 0; Worker 0] ex_disk_full)) !! 0 =
               Some (mkJob (parse_path "in.wav") ["12:00:01 - INFO - loading model"] None
                       (Some "disk full") (TFinally false) GPoll []))
    by (vm_compute; reflexivity).
  split; [apply ex_job_started|]. split.
  - apply (handler_attached_until_detach ex_module_file ex_cwd ex_is_file
             "in.wav" ex_disk_full (ex_job ex_disk_full) ex_schedule
             (fst (ex_run ex_schedule ex_disk_full))
             (snd (ex_run ex_schedule ex_disk_full)) _
             (ex_job_started _) (ex_run_pair _ _) Hj).
  - apply (handler_attached_until_detach ex_module_file ex_cwd ex_is_file
             "in.wav" ex_disk_full (ex_job ex_disk_full) [Worker 0; Worker 0]
             (fst (ex_run [Worker 0; Worker 0] ex_disk_full))
             (snd (ex_run [Worker 0; Worker 0] ex_disk_full)) _
             (ex_job_started _) (ex_run_pair _ _) Hj').
Defined.

Lemma outcome_written_at_most_once_witness :
  start ex_is_file "in.wav" ex_disk_full empty_system = (ex_job ex_disk_full, inr 0) /\
  length (List.filter is_store_event
            (outcome_events 0 (snd (ex_run ex_schedule ex_disk_full)))) <= 1.
Proof.
  assert (Hj : jobs (fst (ex_run ex_schedule ex_disk_full)) !! 0 =
               Some (mkJob (parse_path "in.wav") [] None (Some "disk full") TDone GDone
                       ["12:00:01 - INFO - loading model"]))
    by (vm_compute; reflexivity).
  split; [apply ex_job_started|].
  apply (outcome_written_at_most_once ex_module_file ex_cwd ex_is_file
           "in.wav" ex_disk_full (ex_job ex_disk_full) ex_schedule
           (fst (ex_run ex_schedule ex_disk_full))
           (snd (ex_run ex_schedule ex_disk_full)) _
           (ex_job_started _) (ex_run_pair _ _) Hj).
Defined.

Lemma liveness_break_never_taken_witness :
  start ex_is_file "in.wav" ex_disk_full empty_system = (ex_job ex_disk_full, inr 0) /\
  gen (mkJob (parse_path "in.wav")
         ["12:00:01 - INFO - loading model"; SEPARATION_DONE] None (Some "disk full")
         TDone GEmpty []) = GEmpty /\
  log_q (mkJob (parse_path "in.wav")
         ["12:00:01 - INFO - loading model"; SEPARATION_DONE] None (Some "disk full")
         TDone GEmpty []) <> [].
Proof.
  assert (Hj : jobs (fst (ex_run [Consumer 0; Worker 0; Worker 0; Worker 0; Consumer 0]
                            ex_disk_full)) !! 0 =
               Some (mkJob (parse_path "in.wav")
                       ["12:00:01 - INFO - loading model"; SEPARATION_DONE] None
                       (Some "disk full") TDone GEmpty []))
    by (vm_compute; reflexivity).
  split; [apply ex_job_started|]. split; [reflexivity|].
  destruct (liveness_break_never_taken ex_module_file ex_cwd ex_is_file
              "in.wav" ex_disk_full (ex_job ex_disk_full)
              [Consumer 0; Worker 0; Worker 0; Worker 0; Consumer 0]
              (fst (ex_run [Consumer 0; Worker 0; Worker 0; Worker 0; Consumer 0] ex_disk_full))
              (snd (ex_run [Consumer 0; Worker 0; Worker 0; Worker 0; Consumer 0] ex_disk_full))
              _ (ex_job_started _) (ex_run_pair _ _) Hj) as (H & _).
  destruct (H eq_refl) as (Hne & _). exact Hne.
Defined.

Lemma closed_generator_thread_completes_witness :
  start ex_is_file "in.wav" ex_disk_full empty_system = (ex_job ex_disk_full, inr 0) /\
  exists s' tr' j',
    run ex_module_file ex_cwd (repeat (Worker 0) (length (fst ex_disk_full) + 2))
      (fst (ex_run ex_schedule_close ex_disk_full)) = (s', tr') /\
    jobs s' !! 0 = Some j' /\ gen j' = GClosed /\ is_alive (thread j') = false /\
    handlers s' = [0].
Proof.
  assert (Hj : jobs (fst (ex_run ex_schedule_close ex_disk_full)) !! 0 =
               Some (mkJob (parse_path "in.wav") [] None None
                       (TRunning [] (Raises (mkExc true "disk full"))) GClosed
                       ["12:00:01 - INFO - loading model"]))
    by (vm_compute; reflexivity).
  split; [apply ex_job_started|].
  destruct (closed_generator_thread_completes ex_module_file ex_cwd ex_is_file
              "in.wav" ex_disk_full (ex_job ex_disk_full) ex_schedule_close
              (fst (ex_run ex_schedule_close ex_disk_full))
              (snd (ex_run ex_schedule_close ex_disk_full)) _
              (ex_job_started _) (ex_run_pair _ _) Hj eq_refl)
    as (s' & tr' & j' & Hr & Hj' & Hg & Ha & _ & _ & _ & Hh).
  exists s', tr', j'. auto.
Defined.

Lemma sentinel_put_only_by_own_thread_witness :
  In (EPut 0 SEPARATION_DONE)
     (snd (step ex_module_file ex_cwd (Worker 0)
             (fst (ex_run [Worker 0; Worker 0] ex_disk_full)))) /\
  Worker 0 = Worker 0.
Proof.
  assert (Hin : In (EPut 0 SEPARATION_DONE)
                  (snd (step ex_module_file ex_cwd (Worker 0)
                          (fst (ex_run [Worker 0; Worker 0] ex_disk_full)))))
    by (vm_compute; left; reflexivity).
  split; [exact Hin|].
  destruct (sentinel_put_only_by_own_thread ex_module_file ex_cwd (Worker 0)
              (fst (ex_run [Worker 0; Worker 0] ex_disk_full)) _ _ 0
              (surjective_pairing _) Hin) as (Ha & _).
  exact Ha.
Defined.

Lemma render_shows_and_unlinks_witness :
  UI.render_audios_and_clean (list nat) ["/app/output/a.wav"] ex_fs =
    (inr [UI.shown_audio (list nat) 0 "/app/output/a.wav" 4000 [1; 2; 3];
          UI.hidden_audio (list nat) 1],
     delete "/app/output/a.wav" ex_fs) /\
  length [UI.shown_audio (list nat) 0 "/app/output/a.wav" 4000 [1; 2; 3];
          UI.hidden_audio (list nat) 1] = UI.MAX_AUDIO_NUM.
Proof.
  assert (H : UI.render_audios_and_clean (list nat) ["/app/output/a.wav"] ex_fs =
              (inr [UI.shown_audio (list nat) 0 "/app/output/a.wav" 4000 [1; 2; 3];
                    UI.hidden_audio (list nat) 1],
               delete "/app/output/a.wav" ex_fs))
    by (vm_compute; reflexivity).
  split; [exact H|].
  apply (UIFacts.render_shows_and_unlinks (list nat) _ _ _ _ H).
Defined.

Lemma render_error_after_unlinks_witness :
  UI.render_audios_and_clean (list nat) ["/app/output/a.wav"; "/app/output/b.wav"] ex_fs =
    (inl (UI.SoundFileError "/app/output/b.wav"), delete "/app/output/a.wav" ex_fs) /\
  exists i p,
    i < UI.MAX_AUDIO_NUM /\
    ["/app/output/a.wav"; "/app/output/b.wav"] !! i = Some p /\
    UI.SoundFileError "/app/output/b.wav" = UI.SoundFileError p.
Proof.
  assert (H : UI.render_audios_and_clean (list nat)
                ["/app/output/a.wav"; "/app/output/b.wav"] ex_fs =
              (inl (UI.SoundFileError "/app/output/b.wav"),
               delete "/app/output/a.wav" ex_fs))
    by (vm_compute; reflexivity).
  split; [exact H|].
  destruct (UIFacts.render_error_after_unlinks (list nat) _ _ _ _ H)
    as (i & p & Hi & Hp & He & _).
  exists i, p. auto.
Defined.

Lemma render_same_path_twice_witness :
  ex_fs !! "/app/output/a.wav" = Some (UI.AudioFile (list nat) [1; 2; 3] 4000) /\
  UI.render_audios_and_clean (list nat) ["/app/output/a.wav"; "/app/output/a.wav"] ex_fs =
    (inl (UI.SoundFileError "/app/output/a.wav"), delete "/app/output/a.wav" ex_fs).
Proof.
  assert (H : ex_fs !! "/app/output/a.wav" = Some (UI.AudioFile (list nat) [1; 2; 3] 4000))
    by (vm_compute; reflexivity).
  split; [exact H|].
  apply (UIFacts.render_same_path_twice (list nat) _ [] ex_fs _ _ H).
Defined.

Lemma failed_job_hides_audio_witness :
  start ex_is_file "in.wav" ex_disk_full empty_system = (ex_job ex_disk_full, inr 0) /\
  UI._run_and_update (list nat) (yields 0 (snd (ex_run ex_schedule ex_disk_full))) ex_fs =
    (map (hidden_update (list nat)) (yields 0 (snd (ex_run ex_schedule ex_disk_full))),
     None, ex_fs).
Proof.
  assert (Hj : jobs (fst (ex_run ex_schedule ex_disk_full)) !! 0 =
               Some (mkJob (parse_path "in.wav") [] None (Some "disk full") TDone GDone
                       ["12:00:01 - INFO - loading model"]))
    by (vm_compute; reflexivity).
  split; [apply ex_job_started|].
  apply (failed_job_hides_audio (list nat) ex_module_file ex_cwd ex_is_file
           "in.wav" [ex_record] (mkExc true "disk full") (ex_job ex_disk_full) ex_schedule
           (fst (ex_run ex_schedule ex_disk_full))
           (snd (ex_run ex_schedule ex_disk_full)) _ ex_fs
           (ex_job_started _) eq_refl ltac:(discriminate) (ex_run_pair _ _) Hj eq_refl).
Defined.

Lemma finished_job_renders_artifact_witness :
  start ex_is_file "in.wav" ex_success empty_system = (ex_job ex_success, inr 0) /\
  ex_fs !! resolve ex_module_file ex_cwd "a.wav" =
    Some (UI.AudioFile (list nat) [1; 2; 3] 4000) /\
  snd (UI._run_and_update (list nat) (yields 0 (snd (ex_run ex_schedule ex_success))) ex_fs) =
    delete (resolve ex_module_file ex_cwd "a.wav") ex_fs.
Proof.
  assert (Hj : jobs (fst (ex_run ex_schedule ex_success)) !! 0 =
               Some (mkJob (parse_path "in.wav") [] (Some ["a.wav"]) None TDone GDone
                       ["12:00:01 - INFO - loading model"]))
    by (vm_compute; reflexivity).
  assert (Hf : ex_fs !! resolve ex_module_file ex_cwd "a.wav" =
               Some (UI.AudioFile (list nat) [1; 2; 3] 4000))
    by (vm_compute; reflexivity).
  split; [apply ex_job_started|]. split; [exact Hf|].
  rewrite (finished_job_renders_artifact (list nat) ex_module_file ex_cwd ex_is_file
             "in.wav" [ex_record] "a.wav" (ex_job ex_success) ex_schedule
             (fst (ex_run ex_schedule ex_success))
             (snd (ex_run ex_schedule ex_success)) _ ex_fs [1; 2; 3] 4000
             (ex_job_started _) (ex_run_pair _ _) Hj eq_refl Hf).
  reflexivity.
Defined.

Lemma unreadable_artifact_raises_witness :
  start ex_is_file "in.wav" ex_success empty_system = (ex_job ex_success, inr 0) /\
  snd (fst (UI._run_and_update (list nat)
              (yields 0 (snd (ex_run ex_schedule ex_success))) ∅)) =
    Some (UI.SoundFileError (resolve ex_module_file ex_cwd "a.wav")).
Proof.
  assert (Hj : jobs (fst (ex_run ex_schedule ex_success)) !! 0 =
               Some (mkJob (parse_path "in.wav") [] (Some ["a.wav"]) None TDone GDone
                       ["12:00:01 - INFO - loading model"]))
    by (vm_compute; reflexivity).
  split; [apply ex_job_started|].
  rewrite (unreadable_artifact_raises (list nat) ex_module_file ex_cwd ex_is_file
             "in.wav" [ex_record] "a.wav" [] (ex_job ex_success) ex_schedule
             (fst (ex_run ex_schedule ex_success))
             (snd (ex_run ex_schedule ex_success)) _ ∅
             (ex_job_started _) (ex_run_pair _ _) Hj eq_refl
             ltac:(intros data sr; rewrite lookup_empty; discriminate)).
  reflexivity.
Defined.

Module UIComponents.

Import UI.

Section Keys.

Variable Samples : Type.

(** Updates land on their components.  [ui] creates [MAX_AUDIO_NUM]
    hidden components with the keys [audio_0], [audio_1]; whenever
    [render_audios_and_clean] returns, the update at each place carries the
    key of the component created at that place, and an update that hides
    its component is that component as created. *)
Theorem render_updates_keep_keys (audio_paths : list string)
    (fs fs' : gmap string (File Samples)) (updates : list (Audio Samples)) :
  render_audios_and_clean Samples audio_paths fs = (inr updates, fs') ->
  length (output_audios Samples) = MAX_AUDIO_NUM /\
  Forall (fun a => visible Samples a = false) (output_audios Samples) /\
  NoDup (map (key Samples) (output_audios Samples)) /\
  (forall i, i < MAX_AUDIO_NUM ->
     key Samples <$> updates !! i = key Samples <$> output_audios Samples !! i /\
     (audio_paths !! i = None -> updates !! i = output_audios Samples !! i)).
Proof.
  intros H. destruct (UIFacts.render_returns_updates Samples _ _ _ _ H) as (_ & _ & Hi & _).
  split; [reflexivity|]. split; [repeat constructor|].
  split.
  - unfold output_audios, MAX_AUDIO_NUM. cbn [seq map hidden_audio key].
    repeat constructor; rewrite list_elem_of_In; [|intros []].
    intros [E|[]]. vm_compute in E. discriminate E.
  - intros i Hlt. specialize (Hi i Hlt). unfold MAX_AUDIO_NUM in Hlt.
    destruct i as [|[|i]]; try lia;
      (destruct (audio_paths !! _) as [p|];
       [destruct Hi as (d & sr & _ & -> & _); split; [reflexivity|discriminate]
       |rewrite Hi; split; [reflexivity|reflexivity]]).
Qed.

End Keys.

End UIComponents.

Lemma render_updates_keep_keys_witness :
  UI.render_audios_and_clean (list nat) ["/app/output/a.wav"] ex_fs =
    (inr [UI.shown_audio (list nat) 0 "/app/output/a.wav" 4000 [1; 2; 3];
          UI.hidden_audio (list nat) 1],
     delete "/app/output/a.wav" ex_fs) /\
  NoDup (map (UI.key (list nat)) (UI.output_audios (list nat))).
Proof.
  assert (H : UI.render_audios_and_clean (list nat) ["/app/output/a.wav"] ex_fs =
              (inr [UI.shown_audio (list nat) 0 "/app/output/a.wav" 4000 [1; 2; 3];
                    UI.hidden_audio (list nat) 1],
               delete "/app/output/a.wav" ex_fs))
    by (vm_compute; reflexivity).
  split; [exact H|].
  apply (UIComponents.render_updates_keep_keys (list nat) _ _ _ _ H).
Defined.
